(** * Privacy scoring and address clustering of the blockchain analyser

    A shallow embedding of the analytical core of the two scripts of the
    repository:

    - [addressny]: [CryptocurrencyPrivacyAnalyzer.calculate_privacy_score]
      of [addressny.py], the six-factor privacy score;
    - [transactionny]: the address graph built by
      [analyze_bitcoin_transaction], the clustering of [cluster_addresses]
      and the cluster-size loop of [analyze_privacy_score] of
      [transactionny.py].

    Conventions of the embedding.

    - A Python dict read with [d.get(k, default)] or guarded by [k in d] is a
      record whose field is an [option]; a dict read with [d[k]] raises
      [KeyError] on [None].
    - Python numbers are exact rationals ([Q]): the integers of the ledger
      are embedded with [inject_Z] and true division [/] is the division of
      [Q].  Binary floating point rounding is not modelled: where the
      source rounds a double sum, the statement relates the result to the
      exact sum up to [binary64_slack], and a property that holds of the
      exact sums only (the variance of the sizes summed in another order)
      is not stated.
    - Python sets and dicts are stdpp's [gset] and [gmap]; where the source
      turns a set into a list the order is the one of [elements]. *)

From Stdlib Require Import ZArith QArith Qround Qabs Qminmax Lqa Lia.
From Stdlib Require Import String List DecimalString.
From stdpp Require Import gmap strings list fin_maps sorting.

Local Open Scope Z_scope.
Local Open Scope string_scope.

(** ** Outcomes of code that may raise *)

Inductive result (A : Type) : Type :=
| Ok (a : A)
| KeyError (key : string)
| TypeError (what : string).

Arguments Ok {A} a.
Arguments KeyError {A} key.
Arguments TypeError {A} what.

#[global] Instance result_ret : MRet result := λ A a, Ok a.

#[global] Instance result_bind : MBind result := λ A B k r,
  match r with
  | Ok a => k a
  | KeyError key => KeyError key
  | TypeError what => TypeError what
  end.

Definition returns {A : Type} (r : result A) : Prop := ∃ a, r = Ok a.

(** ** Numbers *)

Definition Qltb (x y : Q) : bool := negb (Qle_bool y x).

Definition Zsum (l : list Z) : Z := fold_left Z.add l 0.

Definition Qsum (l : list Q) : Q := fold_left Qplus l (0 : Q).

(** [len(l)] as a number. *)
Definition len {A : Type} (l : list A) : Q := inject_Z (Z.of_nat (length l)).

(** [sum(1 for x in l if p x)]. *)
Definition count_if {A : Type} (p : A → bool) (l : list A) : Z :=
  Z.of_nat (length (List.filter p l)).

(** [round(x)] of Python 3: to the nearest integer, ties to the even one. *)
Definition round_half_even (x : Q) : Z :=
  let f := Qfloor x in
  let r := (x - inject_Z f)%Q in
  if Qltb r (1 # 2) then f
  else if Qltb (1 # 2) r then f + 1
  else if Z.even f then f else f + 1.

(** [round(x, 2)]. *)
Definition round2 (x : Q) : Q :=
  (inject_Z (round_half_even (x * 100)) / 100)%Q.

(** The source computes in double precision.  The double that stands for a
    two-decimal number below 100 is less than [1e-14] away from it, and the
    double sum of six products of a factor in [[0,100]] and a weight is less
    than [1e-12] away from the exact sum; [binary64_slack] bounds both with
    a wide margin.  It appears where a statement relates the rounded score
    to the sum it is rounded from. *)
Definition binary64_slack : Q := 1 # 1000000000.

(** [str(n)] for an integer. *)
Definition str_of_int (n : Z) : string := NilZero.string_of_int (Z.to_int n).

Module addressny.

(** *** Transaction records, as [get_transaction_data] builds them

    Only the keys [calculate_privacy_score] reads are kept.  [input_count]
    and [output_count] are keys of the summaries of
    [get_address_transactions]; [get_transaction_data] does not set them. *)

Record InputEntry : Type := {
  sender : option string;
  in_script_type : option string
}.

Record OutputEntry : Type := {
  recipient : option string;
  value : option Z;
  out_script_type : option string
}.

Record Tx : Type := {
  inputs : option (list InputEntry);
  outputs : option (list OutputEntry);
  timestamp : option Z;
  input_count : option Z;
  output_count : option Z;
  tx_size : option Z  (* key [size] *)
}.

(** Values stored in [details]. *)
Inductive detail : Type :=
| DNum (q : Q)
| DBool (b : bool)
| DStrs (l : list string).

Record Analysis : Type := {
  score : Q;
  factors : list (string * Q);
  recommendations : list string;
  details : list (string * detail)
}.

(** *** [get_transaction_data]: from the explorer's JSON to a record

    The response of [make_request] is [None] when the request failed. *)

Record RawPrevout : Type := {
  prevout_address : option string;  (* key [scriptpubkey_address] *)
  prevout_value : option Z;         (* key [value] *)
  prevout_type : option string      (* key [scriptpubkey_type] *)
}.

Record RawVin : Type := { prevout : option RawPrevout }.

Record RawVout : Type := {
  vout_address : option string;     (* key [scriptpubkey_address] *)
  vout_value : option Z;            (* key [value] *)
  vout_type : option string         (* key [scriptpubkey_type] *)
}.

Record RawStatus : Type := {
  confirmed : option bool;
  block_time : option Z
}.

Record RawTx : Type := {
  txid : option string;
  status : option RawStatus;
  vin : option (list RawVin);
  vout : option (list RawVout);
  raw_size : option Z               (* key [size] *)
}.

Definition empty_prevout : RawPrevout :=
  {| prevout_address := None; prevout_value := None; prevout_type := None |}.

Definition parse_input (inp : RawVin) : InputEntry :=
  let prev_out := default empty_prevout (prevout inp) in
  {| sender := Some (default "N/A (script)" (prevout_address prev_out));
     in_script_type := Some (default "unknown" (prevout_type prev_out)) |}.

Definition parse_output (out : RawVout) : OutputEntry :=
  {| recipient := Some (default "N/A (script)" (vout_address out));
     value := Some (default 0 (vout_value out));
     out_script_type := Some (default "unknown" (vout_type out)) |}.

(** [data['txid']] and [data['status']] raise [KeyError] when absent, which
    the [except] clause turns into [None]. *)
Definition get_transaction_data (response : option RawTx) : option Tx :=
  data ← response;
  let inputs := map parse_input (default [] (vin data)) in
  let outputs := map parse_output (default [] (vout data)) in
  _ ← txid data;
  st ← status data;
  Some {| inputs := Some inputs;
          outputs := Some outputs;
          timestamp :=
            if default false (confirmed st) then block_time st else None;
          input_count := None;
          output_count := None;
          tx_size := Some (default 0 (raw_size data)) |}.

(** *** Factor 1: address reuse *)

Record reuse : Type := {
  unique_addresses : gset string;
  total_interactions : Z;
  address_usage : gmap string Z
}.

Definition reuse0 : reuse :=
  {| unique_addresses := ∅; total_interactions := 0; address_usage := ∅ |}.

(** The body of both inner loops once [addr] has been read. *)
Definition note_address (addr : string) (s : reuse) : reuse :=
  if decide (addr = "N/A (script)") then s
  else {| unique_addresses := {[addr]} ∪ unique_addresses s;
          total_interactions := total_interactions s + 1;
          address_usage :=
            <[addr := default 0 (address_usage s !! addr) + 1]>
              (address_usage s) |}.

Fixpoint scan_inputs (l : list InputEntry) (s : reuse) : result reuse :=
  match l with
  | [] => Ok s
  | inp :: l' =>
      match sender inp with
      | None => KeyError "sender"
      | Some addr => scan_inputs l' (note_address addr s)
      end
  end.

Fixpoint scan_outputs (l : list OutputEntry) (s : reuse) : result reuse :=
  match l with
  | [] => Ok s
  | out :: l' =>
      match recipient out with
      | None => KeyError "recipient"
      | Some addr => scan_outputs l' (note_address addr s)
      end
  end.

Fixpoint scan_transactions (txs : list Tx) (s : reuse) : result reuse :=
  match txs with
  | [] => Ok s
  | tx :: txs' =>
      s1 ← match inputs tx with
           | Some l => scan_inputs l s
           | None => Ok s
           end;
      s2 ← match outputs tx with
           | Some l => scan_outputs l s1
           | None => Ok s1
           end;
      scan_transactions txs' s2
  end.

Definition reuse_ratio (s : reuse) : Q :=
  (inject_Z (Z.of_nat (size (unique_addresses s)))
   / inject_Z (Z.max (total_interactions s) 1))%Q.

Definition target_reuse (s : reuse) (target_address : string) : Z :=
  default 0 (address_usage s !! target_address).

(** *** Factor 2: timing *)

(** [[tx['timestamp'] for tx in transactions if tx.get('timestamp')]]:
    [None] and [0] are falsy. *)
Definition timestamps_of (txs : list Tx) : list Z :=
  omap (λ tx, match timestamp tx with
              | Some t => if decide (t = 0) then None else Some t
              | None => None
              end) txs.

(** [[ts[i+1] - ts[i] for i in range(len(ts)-1)]]. *)
Fixpoint intervals_of (ts : list Z) : list Z :=
  match ts with
  | a :: (b :: _) as rest => (b - a) :: intervals_of rest
  | _ => []
  end.

Definition avg_interval_of (intervals : list Z) : Q :=
  (inject_Z (Zsum intervals) / len intervals)%Q.

Definition is_regular (avg_interval : Q) (interval : Z) : bool :=
  Qltb (Qabs (inject_Z interval - avg_interval)) 3600.

Definition regular_pattern_of (intervals : list Z) : Q :=
  (inject_Z (count_if (is_regular (avg_interval_of intervals)) intervals)
   / len intervals)%Q.

(** *** Factor 3: amounts *)

Fixpoint values_of (l : list OutputEntry) : result (list Z) :=
  match l with
  | [] => Ok []
  | out :: l' =>
      match value out with
      | None => KeyError "value"
      | Some v => vs ← values_of l'; Ok (v :: vs)
      end
  end.

Definition values_of_tx (tx : Tx) : result (list Z) :=
  match outputs tx with
  | Some l => values_of l
  | None => Ok []
  end.

Fixpoint amounts_of (txs : list Tx) : result (list Z) :=
  match txs with
  | [] => Ok []
  | tx :: txs' =>
      here ← values_of_tx tx;
      rest ← amounts_of txs';
      Ok (here ++ rest)%list
  end.

Definition round_amounts_of (amounts : list Z) : Z :=
  count_if (λ amount, bool_decide (amount `mod` 100000 = 0)) amounts.

Definition amount_counts_of (amounts : list Z) : gmap Z Z :=
  fold_left (λ (m : gmap Z Z) amount,
               <[amount := default 0 (m !! amount) + 1]> m) amounts ∅.

Definition repeated_amounts_of (amounts : list Z) : Z :=
  count_if (λ kv : Z * Z, bool_decide (1 < kv.2))
           (map_to_list (amount_counts_of amounts)).

(** *** Factor 4: input and output counts *)

Definition input_counts_of (txs : list Tx) : list Z :=
  map (λ tx, default 1 (input_count tx)) txs.

Definition output_counts_of (txs : list Tx) : list Z :=
  map (λ tx, default 1 (output_count tx)) txs.

Definition is_simple (io : Z * Z) : bool :=
  bool_decide (io.1 = 1) && bool_decide (io.2 = 2).

Definition is_complex (io : Z * Z) : bool :=
  bool_decide (3 < io.1) || bool_decide (3 < io.2).

Definition simple_tx_ratio_of (txs : list Tx) : Q :=
  (inject_Z (count_if is_simple
               (combine (input_counts_of txs) (output_counts_of txs)))
   / len txs)%Q.

Definition complex_tx_ratio_of (txs : list Tx) : Q :=
  (inject_Z (count_if is_complex
               (combine (input_counts_of txs) (output_counts_of txs)))
   / len txs)%Q.

(** *** Factor 5: script types *)

Definition script_types_of_tx (tx : Tx) (acc : gset string) : gset string :=
  let acc1 :=
    match inputs tx with
    | Some l =>
        acc ∪ list_to_set
                (map (λ inp, default "unknown" (in_script_type inp)) l)
    | None => acc
    end in
  match outputs tx with
  | Some l =>
      acc1 ∪ list_to_set
               (map (λ out, default "unknown" (out_script_type out)) l)
  | None => acc1
  end.

Definition script_types_of (txs : list Tx) : gset string :=
  fold_left (λ acc tx, script_types_of_tx tx acc) txs ∅.

(** *** Factor 6: sizes *)

Definition sizes_of (txs : list Tx) : list Z :=
  List.filter (λ s, bool_decide (0 < s)) (map (λ tx, default 0 (tx_size tx)) txs).

Definition avg_size_of (sizes : list Z) : Q :=
  (inject_Z (Zsum sizes) / len sizes)%Q.

Definition size_variance_of (sizes : list Z) : Q :=
  (Qsum (map (λ s, (inject_Z s - avg_size_of sizes) ^ 2) sizes)
   / len sizes)%Q.

(** *** The weighted score *)

Definition weights : list (string * Q) :=
  [ ("address_diversity", 3 # 10);
    ("timing_randomness", 2 # 10);
    ("amount_diversity", 2 # 10);
    ("transaction_structure", 15 # 100);
    ("script_diversity", 1 # 10);
    ("size_consistency", 5 # 100) ].

(** [d[k]] on an insertion-ordered dict kept as an association list. *)
Fixpoint getitem {V : Type} (d : list (string * V)) (k : string) : result V :=
  match d with
  | [] => KeyError k
  | (k', v) :: d' => if decide (k' = k) then Ok v else getitem d' k
  end.

(** [sum(factors[factor] * weights[factor] for factor in factors)]. *)
Fixpoint weighted_from (acc : Q) (fs all : list (string * Q)) : result Q :=
  match fs with
  | [] => Ok acc
  | (factor, _) :: fs' =>
      f ← getitem all factor;
      w ← getitem weights factor;
      weighted_from (acc + f * w)%Q fs' all
  end.

Definition weighted_score_of (fs : list (string * Q)) : result Q :=
  weighted_from 0 fs fs.

(** *** The six parts of [calculate_privacy_score]

    Each part yields its factor, the entries it adds to [details] and the
    recommendations it appends, in the order of the source. *)

Record part : Type := {
  factor : Q;
  new_details : list (string * detail);
  new_recommendations : list string
}.

Definition when (b : bool) (recommendation : string) : list string :=
  if b then [recommendation] else [].

Definition address_diversity (usage : reuse) (target_address : string) : part :=
  let reused := target_reuse usage target_address in
  {| factor := Qmin (reuse_ratio usage * 100) 100;
     new_details :=
       [ ("address_reuse_count", DNum (inject_Z reused));
         ("unique_addresses",
          DNum (inject_Z (Z.of_nat (size (unique_addresses usage)))));
         ("total_interactions", DNum (inject_Z (total_interactions usage))) ];
     new_recommendations :=
       when (Qltb (reuse_ratio usage) (1 # 2))
         "Consider using a new address for each transaction to improve privacy"
       ++ when (bool_decide (5 < reused))
            ("Target address used " +:+ str_of_int reused
             +:+ " times - high reuse reduces privacy") |}%list.

Definition timing_randomness (transactions : list Tx) : part :=
  let timestamps := timestamps_of transactions in
  if bool_decide (1 < length timestamps)%nat then
    let intervals := intervals_of (merge_sort Z.le timestamps) in
    let avg_interval := avg_interval_of intervals in
    let regular_pattern := regular_pattern_of intervals in
    {| factor := ((1 - regular_pattern) * 100)%Q;
       new_details :=
         [ ("avg_time_between_tx", DNum (avg_interval / 3600)%Q);
           ("regular_timing_pattern",
            DBool (Qltb (7 # 10) regular_pattern)) ];
       new_recommendations :=
         when (Qltb (7 # 10) regular_pattern)
           "Vary transaction timing to avoid predictable patterns" |}
  else
    {| factor := 50;
       new_details := [ ("avg_time_between_tx", DNum 0) ];
       new_recommendations := [] |}.

Definition amount_diversity (amounts : list Z) : part :=
  match amounts with
  | _ :: _ =>
      let round_ratio := (inject_Z (round_amounts_of amounts) / len amounts)%Q in
      {| factor := Qmax 0 (100 - round_ratio * 100);
         new_details :=
           [ ("round_amounts_ratio", DNum round_ratio);
             ("repeated_amounts",
              DNum (inject_Z (repeated_amounts_of amounts))) ];
         new_recommendations :=
           when (Qltb (3 # 10) round_ratio)
             "Avoid round number amounts to improve transaction privacy" |}
  | [] =>
      {| factor := 50;
         new_details := [ ("round_amounts_ratio", DNum 0) ];
         new_recommendations := [] |}
  end.

Definition transaction_structure (transactions : list Tx) : part :=
  let simple_tx_ratio := simple_tx_ratio_of transactions in
  let complex_tx_ratio := complex_tx_ratio_of transactions in
  {| factor := Qmin (simple_tx_ratio * 100 + 20) 100;
     new_details :=
       [ ("simple_tx_ratio", DNum simple_tx_ratio);
         ("complex_tx_ratio", DNum complex_tx_ratio) ];
     new_recommendations :=
       when (Qltb simple_tx_ratio (3 # 10))
         "Consider using simple transaction structures (1 input, 2 outputs) for better privacy"
       ++ when (Qltb (3 # 10) complex_tx_ratio)
            "High complexity transactions may stand out - consider simpler patterns" |}%list.

Definition script_diversity (transactions : list Tx) : part :=
  let script_types := script_types_of transactions in
  {| factor := Qmin (inject_Z (Z.of_nat (size script_types)) * 25) 100;
     new_details := [ ("script_types_used", DStrs (elements script_types)) ];
     new_recommendations := [] |}.

Definition size_consistency (transactions : list Tx) : part :=
  match sizes_of transactions with
  | (_ :: _) as sizes =>
      let avg_size := avg_size_of sizes in
      let size_variance := size_variance_of sizes in
      {| factor := Qmin (Qmax 0 (100 - size_variance / avg_size * 10)) 100;
         new_details := [ ("avg_tx_size", DNum avg_size) ];
         new_recommendations := [] |}
  | [] =>
      {| factor := 50; new_details := []; new_recommendations := [] |}
  end.

(** *** [calculate_privacy_score] *)

Definition calculate_privacy_score
    (transactions : list Tx) (target_address : string) : result Analysis :=
  match transactions with
  | [] =>
      Ok {| score := 0; factors := []; recommendations := []; details := [] |}
  | _ :: _ =>
      usage ← scan_transactions transactions reuse0;
      let p1 := address_diversity usage target_address in
      let p2 := timing_randomness transactions in
      amounts ← amounts_of transactions;
      let p3 := amount_diversity amounts in
      let p4 := transaction_structure transactions in
      let p5 := script_diversity transactions in
      let p6 := size_consistency transactions in
      let factors :=
        [ ("address_diversity", factor p1);
          ("timing_randomness", factor p2);
          ("amount_diversity", factor p3);
          ("transaction_structure", factor p4);
          ("script_diversity", factor p5);
          ("size_consistency", factor p6) ] in
      weighted_score ← weighted_score_of factors;
      Ok {| score := round2 weighted_score;
            factors := factors;
            recommendations :=
              (new_recommendations p1 ++ new_recommendations p2
               ++ new_recommendations p3 ++ new_recommendations p4
               ++ new_recommendations p5 ++ new_recommendations p6)%list;
            details :=
              (new_details p1 ++ new_details p2 ++ new_details p3
               ++ new_details p4 ++ new_details p5 ++ new_details p6)%list |}
  end.

(** A record as [get_transaction_data] normalises it: every input entry has
    its [sender], every output entry its [recipient] and its [value]. *)
Definition normalised_input (inp : InputEntry) : Prop := is_Some (sender inp).

Definition normalised_output (out : OutputEntry) : Prop :=
  is_Some (recipient out) ∧ is_Some (value out).

Definition normalised (tx : Tx) : Prop :=
  (∀ l, inputs tx = Some l → Forall normalised_input l)
  ∧ (∀ l, outputs tx = Some l → Forall normalised_output l).

(** The two halves of [normalised]: what the scan of the addresses needs,
    and what the collection of the amounts needs. *)
Definition has_addresses (tx : Tx) : Prop :=
  (∀ l, inputs tx = Some l → Forall normalised_input l)
  ∧ (∀ l, outputs tx = Some l → Forall (λ out, is_Some (recipient out)) l).

Definition has_values (tx : Tx) : Prop :=
  ∀ l, outputs tx = Some l → Forall (λ out, is_Some (value out)) l.

End addressny.

(** ** networkx, as far as the analyser uses it

    [networkx.DiGraph] keeps a dict of nodes with their attributes and, for
    every ordered pair of nodes, at most one edge with its attributes:
    [add_edge] on a pair that is already linked updates the attributes of
    the existing edge. *)

Module nx.

Record edge_data : Type := {
  tx_hash : string;
  value : Z
}.

#[global] Instance edge_data_eq_dec : EqDecision edge_data.
Proof. solve_decision. Defined.

Record DiGraph : Type := {
  nodes : gmap string (option string);  (* node ↦ its [node_type], if set *)
  edges : gmap (string * string) edge_data
}.

Definition empty : DiGraph := {| nodes := ∅; edges := ∅ |}.

(** [G.add_node(n, node_type=t)]. *)
Definition add_node (n : string) (node_type : string) (G : DiGraph) : DiGraph :=
  {| nodes := <[n := Some node_type]> (nodes G); edges := edges G |}.

(** A node first seen as an edge endpoint is added without attributes. *)
Definition touch (n : string) (ns : gmap string (option string)) :
    gmap string (option string) :=
  match ns !! n with
  | Some _ => ns
  | None => <[n := None]> ns
  end.

(** [G.add_edge(u, v, tx_hash=h, value=x)]. *)
Definition add_edge (u v : string) (d : edge_data) (G : DiGraph) : DiGraph :=
  {| nodes := touch v (touch u (nodes G));
     edges := <[(u, v) := d]> (edges G) |}.

(** [n in G]. *)
Definition has_node (G : DiGraph) (n : string) : bool :=
  bool_decide (is_Some (nodes G !! n)).

(** [G.neighbors(n)], the successors, and [G.predecessors(n)]. *)
Definition neighbors (G : DiGraph) (n : string) : list string :=
  omap (λ e : string * string, if decide (e.1 = n) then Some e.2 else None)
       (elements (dom (edges G))).

Definition predecessors (G : DiGraph) (n : string) : list string :=
  omap (λ e : string * string, if decide (e.2 = n) then Some e.1 else None)
       (elements (dom (edges G))).

(** The neighbours of [n] in [G.to_undirected()]. *)
Definition undirected_neighbors (G : DiGraph) (n : string) : gset string :=
  list_to_set (neighbors G n ++ predecessors G n).

Fixpoint reach (G : DiGraph) (rounds : nat) (seen : gset string) : gset string :=
  match rounds with
  | O => seen
  | S rounds' =>
      reach G rounds'
            (seen ∪ ⋃ (undirected_neighbors G <$> elements seen))
  end.

(** [nx.node_connected_component(G.to_undirected(), n)]: every round of the
    search adds the neighbours of the nodes seen so far, and no search
    needs more rounds than there are nodes. *)
Definition node_connected_component (G : DiGraph) (n : string) : gset string :=
  reach G (size (nodes G)) {[n]}.

(** Two nodes joined by an edge, in either direction. *)
Definition linked (G : DiGraph) (a b : string) : Prop :=
  is_Some (edges G !! (a, b)) ∨ is_Some (edges G !! (b, a)).

(** Every edge joins two nodes of the graph, as [add_edge] ensures. *)
Definition well_formed (G : DiGraph) : Prop :=
  ∀ a b, is_Some (edges G !! (a, b)) →
         is_Some (nodes G !! a) ∧ is_Some (nodes G !! b).

(** A set of nodes that no edge leaves. *)
Definition closed (G : DiGraph) (S : gset string) : Prop :=
  ∀ a b, a ∈ S → linked G a b → b ∈ S.

End nx.

Module transactionny.

(** *** Normalised transaction data

    The keys the graph and the clustering read: the entries of [inputs] and
    of [outputs] both name their address [recipient]. *)

Record Entry : Type := {
  recipient : option string;
  value : option Z
}.

Record TxData : Type := {
  hash : option string;
  inputs : option (list Entry);
  outputs : option (list Entry)
}.

(** *** [get_transaction_data] for Blockstream (the only provider whose
    normaliser invents addresses) *)

Record RawPrevout : Type := {
  prevout_address : option string;  (* key [scriptpubkey_address] *)
  prevout_value : option Z          (* key [value] *)
}.

Record RawVin : Type := { prevout : option RawPrevout }.

Record RawOutStatus : Type := {
  spent : option bool;
  spent_txid : option string
}.

Record RawVout : Type := {
  vout_address : option string;     (* key [scriptpubkey_address] *)
  vout_value : option Z;            (* key [value] *)
  vout_status : option RawOutStatus (* key [status] *)
}.

Record RawTxStatus : Type := {
  confirmed : option bool;
  block_height : option Z
}.

Record RawTx : Type := {
  txid : option string;
  status : option RawTxStatus;
  vin : option (list RawVin);
  vout : option (list RawVout)
}.

Definition required {A : Type} (key : string) (x : option A) : result A :=
  match x with
  | Some a => Ok a
  | None => KeyError key
  end.

Definition blockstream_input (inp : RawVin) : result Entry :=
  prev ← required "prevout" (prevout inp);
  let address :=
    default "N/A (Blockstream needs prev_tx fetch)" (prevout_address prev) in
  v ← required "value" (prevout_value prev);
  Ok {| recipient := Some address; value := Some v |}.

Definition blockstream_output (out : RawVout) : result Entry :=
  let address := default "N/A (script)" (vout_address out) in
  v ← required "value" (vout_value out);
  _ ← required "status" (vout_status out);
  Ok {| recipient := Some address; value := Some v |}.

Fixpoint for_each {A B : Type} (f : A → result B) (l : list A) :
    result (list B) :=
  match l with
  | [] => Ok []
  | a :: l' => b ← f a; bs ← for_each f l'; Ok (b :: bs)
  end.

(** The branch [self.selected_api == "blockstream.info"] applied to the
    decoded response; [None] is the fall-through "failed to parse".  The
    keys read by subscript raise when absent, and nothing catches them. *)
Definition blockstream_transaction_data (data : RawTx) : result (option TxData) :=
  match txid data with
  | None => Ok None
  | Some id =>
      vins ← required "vin" (vin data);
      ins ← for_each blockstream_input vins;
      vouts ← required "vout" (vout data);
      outs ← for_each blockstream_output vouts;
      st ← required "status" (status data);
      is_confirmed ← required "confirmed" (confirmed st);
      _ ← (if is_confirmed : bool
           then required "block_height" (block_height st)
           else Ok 0);
      Ok (Some {| hash := Some id; inputs := Some ins; outputs := Some outs |})
  end.

(** *** The analyser *)

Record Analyzer : Type := {
  transaction_graph : nx.DiGraph;
  address_clusters : gmap string Z
}.

(** [CryptocurrencyPrivacyAnalyzer.__init__]. *)
Definition init : Analyzer :=
  {| transaction_graph := nx.empty; address_clusters := ∅ |}.

(** [recipient and recipient != "nonstandard"]: the address when the test
    passes. *)
Definition standard (recipient : option string) : option string :=
  match recipient with
  | Some r =>
      if decide (r = "") then None
      else if decide (r = "nonstandard") then None
      else Some r
  | None => None
  end.

Definition add_nodes (node_type : string) (entries : list Entry)
    (G : nx.DiGraph) : nx.DiGraph :=
  foldl (λ G e, match standard (recipient e) with
                | Some r => nx.add_node r node_type G
                | None => G
                end) G entries.

Definition add_edges_from (tx_hash in_recipient : string)
    (outputs : list Entry) (G : nx.DiGraph) : nx.DiGraph :=
  foldl (λ G out, match standard (recipient out) with
                  | Some out_recipient =>
                      nx.add_edge in_recipient out_recipient
                        {| nx.tx_hash := tx_hash;
                           nx.value := default 0 (value out) |} G
                  | None => G
                  end) G outputs.

Definition add_edges (tx_hash : string) (inputs outputs : list Entry)
    (G : nx.DiGraph) : nx.DiGraph :=
  foldl (λ G inp, match standard (recipient inp) with
                  | Some in_recipient =>
                      add_edges_from tx_hash in_recipient outputs G
                  | None => G
                  end) G inputs.

(** "Build transaction graph" of [analyze_bitcoin_transaction]. *)
Definition build_graph (tx_hash : string) (tx_data : TxData)
    (G : nx.DiGraph) : nx.DiGraph :=
  let inputs := default [] (inputs tx_data) in
  let outputs := default [] (outputs tx_data) in
  add_edges tx_hash inputs outputs
    (add_nodes "output" outputs (add_nodes "input" inputs G)).

(** [analyze_bitcoin_transaction], given what the API client answered for
    [tx_hash].  Printing is left out. *)
Definition analyze_bitcoin_transaction (fetched : option TxData)
    (tx_hash : string) (self : Analyzer) : Analyzer * option TxData :=
  match fetched with
  | None => (self, None)
  | Some tx_data =>
      ({| transaction_graph :=
            build_graph tx_hash tx_data (transaction_graph self);
          address_clusters := address_clusters self |},
       Some tx_data)
  end.

(** *** [cluster_addresses] *)

(** The locals [clusters] and [cluster_id] and the field
    [self.address_clusters] while the loop runs. *)
Record clustering : Type := {
  clusters : gmap Z (list string);
  cluster_id : Z;
  registry : gmap string Z
}.

(** The scan of the component that decides [new_cluster_found]. *)
Fixpoint new_cluster_found (registry : gmap string Z)
    (component : list string) (found : bool) : bool :=
  match component with
  | [] => found
  | comp_addr :: component' =>
      if decide (is_Some (registry !! comp_addr)) then false
      else new_cluster_found registry component' true
  end.

Definition assign_all (component : list string) (id : Z)
    (registry : gmap string Z) : gmap string Z :=
  foldl (λ m addr, <[addr := id]> m) registry component.

(** One iteration of [for address in addresses]. *)
Definition cluster_step (G : nx.DiGraph) (st : clustering)
    (address : string) : clustering :=
  if decide (is_Some (registry st !! address)) then st
  else if nx.has_node G address then
    let component := elements (nx.node_connected_component G address) in
    if new_cluster_found (registry st) component false then
      {| clusters := <[cluster_id st := component]> (clusters st);
         cluster_id := cluster_id st + 1;
         registry := assign_all component (cluster_id st) (registry st) |}
    else st
  else
    {| clusters := <[cluster_id st := [address]]> (clusters st);
       cluster_id := cluster_id st + 1;
       registry := <[address := cluster_id st]> (registry st) |}.

Definition cluster_addresses (addresses : list string) (self : Analyzer) :
    Analyzer * gmap Z (list string) :=
  let st :=
    foldl (cluster_step (transaction_graph self))
          {| clusters := ∅; cluster_id := 0;
             registry := address_clusters self |}
          addresses in
  ({| transaction_graph := transaction_graph self;
      address_clusters := registry st |},
   clusters st).

(** *** [find_related_addresses] *)

Definition find_related_addresses (self : Analyzer) (address : string) :
    list string :=
  let related :=
    if nx.has_node (transaction_graph self) address then
      (nx.neighbors (transaction_graph self) address
       ++ nx.predecessors (transaction_graph self) address)%list
    else [] in
  elements (list_to_set related : gset string).

(** *** [analyze_privacy_score] *)

(** Python values that meet in the cluster-size loop. *)
Inductive pyval : Type :=
| PStr (s : string)
| PInt (n : Z).

(** [a == b]: values of different types are never equal. *)
Definition py_eq (a b : pyval) : bool :=
  match a, b with
  | PStr s, PStr t => bool_decide (s = t)
  | PInt n, PInt m => bool_decide (n = m)
  | _, _ => false
  end.

(** [len(v)]. *)
Definition py_len (v : pyval) : result Z :=
  match v with
  | PStr s => Ok (Z.of_nat (String.length s))
  | PInt _ => TypeError "object of type 'int' has no len()"
  end.

(** [for cid, cluster_members in self.address_clusters.items()]: the keys
    are addresses and the values cluster ids. *)
Fixpoint cluster_size_loop (items : list (string * Z))
    (address_cluster_id : Z) : result Z :=
  match items with
  | [] => Ok 0
  | (cid, cluster_members) :: items' =>
      if py_eq (PStr cid) (PInt address_cluster_id)
      then py_len (PInt cluster_members)
      else cluster_size_loop items' address_cluster_id
  end.

Definition cluster_size_of (self : Analyzer) (address : string) : result Z :=
  match address_clusters self !! address with
  | Some address_cluster_id =>
      cluster_size_loop (map_to_list (address_clusters self))
                        address_cluster_id
  | None => Ok 0
  end.

(** [if inp.get('recipient')]: any non-empty string passes. *)
Definition truthy (recipient : option string) : option string :=
  match recipient with
  | Some r => if decide (r = "") then None else Some r
  | None => None
  end.

Definition related_in (tx_data : TxData) : list string :=
  (omap (λ e, truthy (recipient e)) (default [] (inputs tx_data))
   ++ omap (λ e, truthy (recipient e)) (default [] (outputs tx_data)))%list.

(** [all_related_addresses_in_txs] over what the API client answered for
    each transaction of the address. *)
Definition all_related_addresses (fetched : list (option TxData)) : gset string :=
  list_to_set (concat (map (λ o, from_option related_in [] o) fetched)).

Record PrivacyScore : Type := {
  transaction_count : Z;
  related_addresses_in_graph : Z;
  score_cluster_id : option Z;      (* key [cluster_id] *)
  cluster_size : Z;
  reused_addresses_risk : string;
  privacy_rating : Z
}.

Definition analyze_privacy_score (fetched : list (option TxData))
    (address : string) (self : Analyzer) : result (Analyzer * PrivacyScore) :=
  let self := (cluster_addresses
                 (elements (all_related_addresses fetched)) self).1 in
  let related_addresses := find_related_addresses self address in
  let address_cluster_id := address_clusters self !! address in
  cluster_size ← cluster_size_of self address;
  let related := Z.of_nat (length related_addresses) in
  Ok (self,
      {| transaction_count := Z.of_nat (length fetched);
         related_addresses_in_graph := related;
         score_cluster_id := address_cluster_id;
         cluster_size := cluster_size;
         reused_addresses_risk := if bool_decide (5 < related) then "High" else "Low";
         privacy_rating := Z.max 0 (100 - (cluster_size * 2 + related * 3)) |}).

(** *** What a transaction contributes to the graph *)

(** The addresses of the entries that pass the filter. *)
Definition standard_addresses (entries : list Entry) : list string :=
  omap (λ e, standard (recipient e)) entries.

(** The value of the last output entry that pays to [b]. *)
Fixpoint last_value_to (b : string) (outputs : list Entry) : option Z :=
  match outputs with
  | [] => None
  | out :: outputs' =>
      match last_value_to b outputs' with
      | Some v => Some v
      | None =>
          if decide (standard (recipient out) = Some b)
          then Some (default 0 (value out)) else None
      end
  end.

(** *** A session: the menu of [main] calling into one analyser *)

Inductive call : Type :=
| AnalyzeTransaction (fetched : option TxData) (tx_hash : string)
| ClusterAddresses (addresses : list string).

Definition run_call (self : Analyzer) (c : call) : Analyzer :=
  match c with
  | AnalyzeTransaction fetched tx_hash =>
      (analyze_bitcoin_transaction fetched tx_hash self).1
  | ClusterAddresses addresses => (cluster_addresses addresses self).1
  end.

Definition run (calls : list call) (self : Analyzer) : Analyzer :=
  foldl run_call self calls.

End transactionny.

(** ** Samples *)

Module score_samples.
Import addressny.

(** One input from [A], two outputs to [B] and [C] with distinct amounts
    that are not round, in the shape [get_transaction_data] returns. *)
Definition one_in_two_out : Tx :=
  {| inputs := Some [ {| sender := Some "A"; in_script_type := Some "p2pkh" |} ];
     outputs :=
       Some [ {| recipient := Some "B"; value := Some 12345;
                 out_script_type := Some "p2pkh" |};
              {| recipient := Some "C"; value := Some 54321;
                 out_script_type := Some "p2pkh" |} ];
     timestamp := Some 1700000000;
     input_count := None;
     output_count := None;
     tx_size := Some 225 |}.

(** The explorer's JSON for it. *)
Definition raw_one_in_two_out : RawTx :=
  {| txid := Some "f4184fc596403b9d";
     status := Some {| confirmed := Some true; block_time := Some 1700000000 |};
     vin := Some [ {| prevout :=
                        Some {| prevout_address := Some "A";
                                prevout_value := Some 66700;
                                prevout_type := Some "p2pkh" |} |} ];
     vout := Some [ {| vout_address := Some "B"; vout_value := Some 12345;
                       vout_type := Some "p2pkh" |};
                    {| vout_address := Some "C"; vout_value := Some 54321;
                       vout_type := Some "p2pkh" |} ];
     raw_size := Some 225 |}.

(** The same record with the count keys of a summary added. *)
Definition counted_one_in_two_out : Tx :=
  {| inputs := inputs one_in_two_out;
     outputs := outputs one_in_two_out;
     timestamp := timestamp one_in_two_out;
     input_count := Some 1;
     output_count := Some 2;
     tx_size := tx_size one_in_two_out |}.

(** Two transactions confirmed in the same block: one timestamp, twice. *)
Definition same_block : list Tx := [one_in_two_out; one_in_two_out].

(** Three transactions one hour, then three hours apart. *)
Definition later (seconds : Z) : Tx :=
  {| inputs := inputs one_in_two_out;
     outputs := outputs one_in_two_out;
     timestamp := Some (1700000000 + seconds);
     input_count := None;
     output_count := None;
     tx_size := tx_size one_in_two_out |}.


(** An input entry without its [sender] key. *)
Definition no_sender : Tx :=
  {| inputs := Some [ {| sender := None; in_script_type := Some "p2pkh" |} ];
     outputs := Some [];
     timestamp := None;
     input_count := None;
     output_count := None;
     tx_size := None |}.

End score_samples.

Module graph_samples.
Import transactionny.

Definition entry (address : string) (amount : Z) : Entry :=
  {| recipient := Some address; value := Some amount |}.

(** [A] pays [B]; later [C] pays [D]; later still [B] pays [C]. *)
Definition pay_ab : TxData :=
  {| hash := Some "h1"; inputs := Some [entry "A" 5];
     outputs := Some [entry "B" 4] |}.

Definition pay_cd : TxData :=
  {| hash := Some "h2"; inputs := Some [entry "C" 9];
     outputs := Some [entry "D" 8] |}.

Definition pay_bc : TxData :=
  {| hash := Some "h3"; inputs := Some [entry "B" 4];
     outputs := Some [entry "C" 3] |}.

(** A second payment of [A] to [B], with another hash and amount. *)
Definition pay_ab_again : TxData :=
  {| hash := Some "h9"; inputs := Some [entry "A" 8];
     outputs := Some [entry "B" 7] |}.



(** Two clusters, then the bridge between them. *)
Definition two_clusters : Analyzer :=
  run [ AnalyzeTransaction (Some pay_ab) "h1";
        AnalyzeTransaction (Some pay_cd) "h2";
        ClusterAddresses ["A"; "C"] ] init.

Definition bridging : list call :=
  [ AnalyzeTransaction (Some pay_bc) "h3";
    ClusterAddresses ["A"; "B"; "C"; "D"] ].

End graph_samples.

(** ** The API client and the driver of [addressny.py] *)

Module addressny_client.
Import addressny.

(** *** [make_request]

    What the network answers to the successive requests: a response with
    its status code and decoded body, or a [RequestException].  The body of
    a response with status 200 is taken to decode; sleeping and printing are
    left out. *)

Inductive reply (J : Type) : Type :=
| Response (status_code : Z) (json : J)
| RequestException.

Arguments Response {J} status_code json.
Arguments RequestException {J}.

(** The iterations [attempt], [attempt + 1], ... of
    [for attempt in range(max_retries)], [remaining] of them; the result
    comes with the number of requests sent. *)
Fixpoint attempts {J : Type} (net : nat → reply J) (remaining attempt : nat) :
    option J * nat :=
  match remaining with
  | O => (None, attempt)
  | S remaining' =>
      match net attempt with
      | Response status_code json =>
          if decide (status_code = 200) then (Some json, S attempt)
          else if decide (status_code = 429)
               then attempts net remaining' (S attempt)
               else (None, S attempt)
      | RequestException => attempts net remaining' (S attempt)
      end
  end.

Definition make_request {J : Type} (net : nat → reply J) (max_retries : Z) :
    option J * nat :=
  attempts net (Z.to_nat max_retries) 0.

(** A reply after which the loop goes on. *)
Definition retried {J : Type} (r : reply J) : Prop :=
  match r with
  | Response status_code _ => status_code = 429
  | RequestException => True
  end.

(** *** [get_address_transactions]

    Of a summary only the keys read later are kept. *)

Record Summary : Type := {
  hash : string;
  summary_timestamp : option Z;   (* key [timestamp] *)
  summary_size : Z;               (* key [size] *)
  summary_input_count : Z;        (* key [input_count] *)
  summary_output_count : Z        (* key [output_count] *)
}.

(** [l[:limit]]: a negative limit counts from the end. *)
Definition slice_to {A : Type} (l : list A) (limit : Z) : list A :=
  if decide (0 ≤ limit)%Z then take (Z.to_nat limit) l
  else take (length l - Z.to_nat (- limit)) l.

(** The body of the [try]: [tx['txid']] and [tx['status']] raise
    [KeyError], which skips the transaction. *)
Definition summarise (tx : RawTx) : option Summary :=
  id ← txid tx;
  st ← status tx;
  Some {| hash := id;
          summary_timestamp :=
            if default false (confirmed st) then block_time st else None;
          summary_size := default 0 (raw_size tx);
          summary_input_count := Z.of_nat (length (default [] (vin tx)));
          summary_output_count := Z.of_nat (length (default [] (vout tx))) |}.

Definition get_address_transactions (response : option (list RawTx))
    (limit : Z) : list Summary :=
  match response with
  | None => []
  | Some data => omap summarise (slice_to data limit)
  end.

(** A summary as a transaction record, were it handed to the score. *)
Definition summary_record (s : Summary) : Tx :=
  {| inputs := None;
     outputs := None;
     timestamp := summary_timestamp s;
     input_count := Some (summary_input_count s);
     output_count := Some (summary_output_count s);
     tx_size := Some (summary_size s) |}.

(** *** [analyze_privacy_score] *)

(** The loop that fills [all_full_tx_data]; [fetch] is what [make_request]
    answers for the transaction of a hash. *)
Fixpoint fetch_details (fetch : string → option RawTx) (max_transactions : Z)
    (summaries : list Summary) (processed_count : Z) : list Tx :=
  match summaries with
  | [] => []
  | tx_summary :: summaries' =>
      if decide (max_transactions ≤ processed_count)%Z then []
      else match get_transaction_data (fetch (hash tx_summary)) with
           | Some tx_data =>
               tx_data :: fetch_details fetch max_transactions summaries'
                            (processed_count + 1)
           | None =>
               fetch_details fetch max_transactions summaries' processed_count
           end
  end.

(** The analysis handed to [display_privacy_report]; [None] when the
    function returns before scoring. *)
Definition analyze_privacy_score (response : option (list RawTx))
    (fetch : string → option RawTx) (address : string)
    (max_transactions : Z) : option (result Analysis) :=
  match get_address_transactions response 50 with
  | [] => None
  | (_ :: _) as transactions_summary =>
      match fetch_details fetch max_transactions transactions_summary 0 with
      | [] => None
      | (_ :: _) as all_full_tx_data =>
          Some (calculate_privacy_score all_full_tx_data address)
      end
  end.

(** *** The addresses the score counts *)

(** The senders and recipients in the order the first loop meets them. *)
Definition addresses_of_tx (tx : Tx) : list string :=
  (omap sender (default [] (inputs tx))
   ++ omap recipient (default [] (outputs tx)))%list.

Definition addresses_of (txs : list Tx) : list string :=
  txs ≫= addresses_of_tx.

(** Those that are not the placeholder. *)
Definition counted (addrs : list string) : list string :=
  filter (λ a, a ≠ "N/A (script)") addrs.

Definition occurrences (a : string) (addrs : list string) : Z :=
  Z.of_nat (length (filter (λ b, b = a) addrs)).

(** The output values in the order the third loop meets them. *)
Definition values_of_outputs (txs : list Tx) : list Z :=
  txs ≫= λ tx, omap value (default [] (outputs tx)).

(** *** The result from its parts *)

(** What [calculate_privacy_score] returns once the two loops that may raise
    have run. *)
Definition assemble (usage : reuse) (amounts : list Z)
    (transactions : list Tx) (target_address : string) : Analysis :=
  let p1 := address_diversity usage target_address in
  let p2 := timing_randomness transactions in
  let p3 := amount_diversity amounts in
  let p4 := transaction_structure transactions in
  let p5 := script_diversity transactions in
  let p6 := size_consistency transactions in
  {| score :=
       round2 (0 + factor p1 * (3 # 10) + factor p2 * (2 # 10)
               + factor p3 * (2 # 10) + factor p4 * (15 # 100)
               + factor p5 * (1 # 10) + factor p6 * (5 # 100))%Q;
     factors :=
       [ ("address_diversity", factor p1);
         ("timing_randomness", factor p2);
         ("amount_diversity", factor p3);
         ("transaction_structure", factor p4);
         ("script_diversity", factor p5);
         ("size_consistency", factor p6) ];
     recommendations :=
       (new_recommendations p1 ++ new_recommendations p2
        ++ new_recommendations p3 ++ new_recommendations p4
        ++ new_recommendations p5 ++ new_recommendations p6)%list;
     details :=
       (new_details p1 ++ new_details p2 ++ new_details p3
        ++ new_details p4 ++ new_details p5 ++ new_details p6)%list |}.

End addressny_client.

(** ** What the clustering loop maintains *)

Module clustering_spec.
Import transactionny.

(** The clusters found so far are numbered from 0 without gaps, were not
    assigned before the call, and are recorded in the registry. *)
Definition coherent (before : gmap string Z) (st : clustering) : Prop :=
  cluster_id st = Z.of_nat (size (clusters st))
  ∧ (∀ k, is_Some (clusters st !! k) ↔ (0 ≤ k < cluster_id st)%Z)
  ∧ (∀ a id, before !! a = Some id → registry st !! a = Some id)
  ∧ (∀ k members, clusters st !! k = Some members →
       members ≠ []
       ∧ ∀ m, m ∈ members → before !! m = None ∧ registry st !! m = Some k).

(** An address the loop has nothing left to do for: it has an id, or it is
    in the graph and its component holds an address with an id. *)
Definition settled (G : nx.DiGraph) (reg : gmap string Z) (a : string) : Prop :=
  is_Some (reg !! a)
  ∨ (nx.has_node G a = true
     ∧ ∃ m, m ∈ nx.node_connected_component G a ∧ is_Some (reg !! m)).

(** The ids tell the components of the graph apart. *)
Definition partitioned (G : nx.DiGraph) (st : clustering) : Prop :=
  (∀ a id, registry st !! a = Some id → (id < cluster_id st)%Z)
  ∧ (∀ a b ida idb,
       registry st !! a = Some ida → registry st !! b = Some idb →
       (ida = idb ↔ rtc (nx.linked G) a b))
  ∧ (∀ a b, is_Some (registry st !! a) → nx.linked G a b →
            is_Some (registry st !! b)).

(** Each cluster found so far is a whole component of the graph, and every
    address that got its id in this call is a member of the cluster of
    that id. *)
Definition whole_components (G : nx.DiGraph) (before : gmap string Z)
    (st : clustering) : Prop :=
  (∀ k members m, clusters st !! k = Some members → m ∈ members →
     ∀ x, x ∈ members ↔ rtc (nx.linked G) m x)
  ∧ (∀ a id, before !! a = None → registry st !! a = Some id →
       ∃ members, clusters st !! id = Some members ∧ a ∈ members).

End clustering_spec.

(** ** [visualize_transaction_flow]: how the nodes are told apart *)

Module visualize.
Import transactionny.

(** [[n for n, d in G.nodes(data=True) if d.get('node_type') == t]]. *)
Definition nodes_of_type (t : string) (G : nx.DiGraph) : list string :=
  (filter (λ nd : string * option string, nd.2 = Some t)
          (map_to_list (nx.nodes G))).*1.

Definition input_nodes (G : nx.DiGraph) : list string :=
  nodes_of_type "input" G.

Definition output_nodes (G : nx.DiGraph) : list string :=
  nodes_of_type "output" G.

(** [list(set(input_nodes) & set(output_nodes))]. *)
Definition common_nodes (G : nx.DiGraph) : list string :=
  elements (list_to_set (input_nodes G) ∩ list_to_set (output_nodes G)
            : gset string).

(** [list(set(input_nodes) - set(common_nodes))]. *)
Definition input_only (G : nx.DiGraph) : list string :=
  elements (list_to_set (input_nodes G) ∖ list_to_set (common_nodes G)
            : gset string).

Definition output_only (G : nx.DiGraph) : list string :=
  elements (list_to_set (output_nodes G) ∖ list_to_set (common_nodes G)
            : gset string).

(** Every node carries one of the two tags. *)
Definition all_typed (G : nx.DiGraph) : Prop :=
  ∀ n t, nx.nodes G !! n = Some t → t = Some "input" ∨ t = Some "output".

End visualize.

(** ** The fetches of [analyze_privacy_score] of [transactionny.py] *)

Module transactionny_client.
Import transactionny.

(** One element of the list Blockstream answers for an address, as
    [get_address_transactions] normalises it.  Of the summary only the key
    [hash] is read afterwards, so a summary is its hash; [tx['txid']] and
    [tx['status']] are subscripts. *)
Definition blockstream_summary (tx : RawTx) : result string :=
  id ← required "txid" (txid tx);
  _ ← required "status" (status tx);
  Ok id.

(** [get_address_transactions] for Blockstream.  [response] is what
    [_make_request] returned when it is a list, [None] otherwise (a failed
    request or a body that is no list); [if not data] also sends the empty
    list to [None]. *)
Definition get_address_transactions (response : option (list RawTx)) :
    result (option (list string)) :=
  match response with
  | None | Some [] => Ok None
  | Some data =>
      normalized_txs ← for_each blockstream_summary data;
      Ok (Some normalized_txs)
  end.

(** [get_address_transactions_info]: [None] becomes the empty list. *)
Definition get_address_transactions_info (response : option (list RawTx)) :
    result (list string) :=
  transactions ← get_address_transactions response;
  Ok (default [] transactions).

(** [get_transaction_data] for Blockstream; [fetch] is what
    [_make_request] returns for the transaction, [None] when the request
    failed. *)
Definition get_transaction_data (fetch : string → option RawTx)
    (tx_hash : string) : result (option TxData) :=
  match fetch tx_hash with
  | None => Ok None
  | Some data => blockstream_transaction_data data
  end.

(** The two kinds of fetch of [analyze_privacy_score]: the transactions of
    the address, then the data of each of them.  Nothing catches what they
    raise. *)
Definition fetch_all (response : option (list RawTx))
    (fetch : string → option RawTx) : result (list (option TxData)) :=
  transactions ← get_address_transactions_info response;
  for_each (get_transaction_data fetch) transactions.

(** [analyze_privacy_score] with its fetches.  The loop over the
    transactions changes no state of the analyser, so what it fetches is
    taken first. *)
Definition analyze_privacy_score (response : option (list RawTx))
    (fetch : string → option RawTx) (address : string) (self : Analyzer) :
    result (Analyzer * PrivacyScore) :=
  fetched ← fetch_all response fetch;
  transactionny.analyze_privacy_score fetched address self.

End transactionny_client.

(** * Properties of the privacy score *)

Section Numbers.

Local Open Scope Q_scope.

Lemma Qltb_lt (x y : Q) : Qltb x y = true ↔ x < y.
Proof.
  unfold Qltb. rewrite negb_true_iff, <- not_true_iff_false, Qle_bool_iff.
  split; [apply Qnot_le_lt | apply Qlt_not_le].
Qed.

Lemma Qltb_ge (x y : Q) : Qltb x y = false ↔ y <= x.
Proof.
  unfold Qltb. rewrite negb_false_iff. apply Qle_bool_iff.
Qed.

Lemma count_if_bounds {A : Type} (p : A → bool) (l : list A) :
  (0 ≤ count_if p l ≤ Z.of_nat (length l))%Z.
Proof.
  unfold count_if. pose proof (filter_length_le p l). lia.
Qed.

(** A count over a list divided by the length of the list is a ratio. *)
Lemma ratio_bounds (c : Z) {A : Type} (l : list A) :
  (0 ≤ c ≤ Z.of_nat (length l))%Z → 0 <= inject_Z c / len l <= 1.
Proof.
  intros [Hc Hl]. unfold len.
  destruct l as [|a l].
  - simpl in *. assert (c = 0%Z) as -> by lia. split; discriminate.
  - set (n := Z.of_nat (length (a :: l))) in *.
    assert (0 < inject_Z n) as Hn.
    { change 0 with (inject_Z 0). rewrite <- Zlt_Qlt. unfold n. simpl length. lia. }
    assert (0 <= inject_Z c) by (change 0 with (inject_Z 0); rewrite <- Zle_Qle; lia).
    assert (inject_Z c <= inject_Z n) by (rewrite <- Zle_Qle; lia).
    split.
    + apply Qle_shift_div_l; [done | lra].
    + apply Qle_shift_div_r; [done | lra].
Qed.

Lemma round_half_even_bounds (x : Q) (n : Z) :
  0 <= x <= inject_Z n → (0 ≤ round_half_even x ≤ n)%Z.
Proof.
  intros [H0 Hn].
  assert (0 ≤ Qfloor x)%Z as Hf0.
  { rewrite <- (Qfloor_Z 0). by apply Qfloor_resp_le. }
  assert (Qfloor x ≤ n)%Z as Hfn.
  { rewrite <- (Qfloor_Z n). by apply Qfloor_resp_le. }
  pose proof (Qfloor_le x) as Hfx.
  unfold round_half_even.
  destruct (Qltb (x - inject_Z (Qfloor x)) (1 # 2)) eqn:Hlow; [lia |].
  apply Qltb_ge in Hlow.
  assert (Qfloor x < n)%Z.
  { rewrite Zlt_Qlt. lra. }
  destruct (Qltb _ _); [lia |]. destruct (Z.even _); lia.
Qed.

Lemma round2_bounds (x : Q) : 0 <= x <= 100 → 0 <= round2 x <= 100.
Proof.
  intros [H0 H100].
  destruct (round_half_even_bounds (x * 100) 10000) as [Hr0 Hr1].
  { change (inject_Z 10000) with 10000. lra. }
  unfold round2. rewrite Zle_Qle in Hr0, Hr1.
  change (inject_Z 0) with 0 in Hr0. change (inject_Z 10000) with 10000 in Hr1.
  split.
  - apply Qle_shift_div_l; lra.
  - apply Qle_shift_div_r; lra.
Qed.

Lemma round_half_even_near (x : Q) :
  Qabs (inject_Z (round_half_even x) - x) <= 1 # 2.
Proof.
  pose proof (Qfloor_le x) as Hlow.
  pose proof (Qlt_floor x) as Hhigh.
  rewrite inject_Z_plus in Hhigh. change (inject_Z 1) with 1 in Hhigh.
  apply Qabs_Qle_condition. unfold round_half_even.
  destruct (Qltb (x - inject_Z (Qfloor x)) (1 # 2)) eqn:H1.
  { apply Qltb_lt in H1. lra. }
  apply Qltb_ge in H1.
  destruct (Qltb (1 # 2) (x - inject_Z (Qfloor x))) eqn:H2.
  { rewrite inject_Z_plus. change (inject_Z 1) with 1. lra. }
  apply Qltb_ge in H2.
  destruct (Z.even _); [lra |].
  rewrite inject_Z_plus. change (inject_Z 1) with 1. lra.
Qed.

Lemma round2_near (x : Q) : Qabs (round2 x - x) <= 1 # 200.
Proof.
  pose proof (round_half_even_near (x * 100)) as H.
  apply Qabs_Qle_condition in H. apply Qabs_Qle_condition.
  unfold round2.
  set (n := inject_Z (round_half_even (x * 100))) in *.
  assert (n / 100 == n * (1 # 100)) as -> by (by field).
  lra.
Qed.

Lemma Qmin_bounds (x : Q) : 0 <= x → 0 <= Qmin x 100 <= 100.
Proof.
  intros. split; [apply Q.min_glb; lra | apply Q.le_min_r].
Qed.

Lemma Qmax_bounds (x : Q) : x <= 100 → 0 <= Qmax 0 x <= 100.
Proof.
  intros. split; [apply Q.le_max_l | apply Q.max_lub; lra].
Qed.

End Numbers.

Module addressny_facts.
Import addressny.

(** *** When the score is computed at all *)

Lemma scan_inputs_returns l s :
  returns (scan_inputs l s) ↔ Forall normalised_input l.
Proof.
  revert s. induction l as [|inp l IH]; intros s; simpl.
  - split; [constructor | by exists s].
  - rewrite Forall_cons. unfold normalised_input at 1.
    destruct (sender inp) as [addr|].
    + rewrite IH. split; [by split; [eexists |] | by intros []].
    + split; [by intros [? ?] | by intros [[? ?] _]].
Qed.

Lemma scan_outputs_returns l s :
  returns (scan_outputs l s) ↔ Forall (λ out, is_Some (recipient out)) l.
Proof.
  revert s. induction l as [|out l IH]; intros s; simpl.
  - split; [constructor | by exists s].
  - rewrite Forall_cons.
    destruct (recipient out) as [addr|].
    + rewrite IH. split; [by split; [eexists |] | by intros []].
    + split; [by intros [? ?] | by intros [[? ?] _]].
Qed.

Lemma values_of_returns l :
  returns (values_of l) ↔ Forall (λ out, is_Some (value out)) l.
Proof.
  induction l as [|out l IH]; simpl.
  - split; [constructor | by eexists].
  - rewrite Forall_cons, <- IH.
    destruct (value out) as [v|].
    + split.
      * intros [vs Hvs]. split; [by eexists |].
        destruct (values_of l); [by eexists | done | done].
      * intros [_ [vs ->]]. by eexists.
    + split; [by intros [? ?] | by intros [[? ?] _]].
Qed.

Lemma normalised_split tx : normalised tx ↔ has_addresses tx ∧ has_values tx.
Proof.
  unfold normalised, has_addresses, has_values, normalised_output.
  split.
  - intros [Hi Ho]. repeat split; [done | |]; intros l Hl;
      specialize (Ho l Hl); rewrite Forall_forall in *; naive_solver.
  - intros [[Hi Ho] Hv]. split; [done |]. intros l Hl.
    specialize (Ho l Hl). specialize (Hv l Hl).
    rewrite Forall_forall in *. naive_solver.
Qed.

Lemma scan_transactions_returns txs s :
  returns (scan_transactions txs s) ↔ Forall has_addresses txs.
Proof.
  revert s. induction txs as [|tx txs IH]; intros s; simpl.
  - split; [constructor | by exists s].
  - rewrite Forall_cons. unfold has_addresses at 1.
    destruct (inputs tx) as [ins|] eqn:Hins.
    + destruct (scan_inputs ins s) as [s1| |] eqn:Hs1; simpl.
      * assert (Forall normalised_input ins) as Hok
          by (apply (scan_inputs_returns ins s); by eexists).
        destruct (outputs tx) as [outs|] eqn:Houts.
        -- destruct (scan_outputs outs s1) as [s2| |] eqn:Hs2; simpl.
           ++ rewrite IH.
              assert (Forall (λ out, is_Some (recipient out)) outs)
                by (apply (scan_outputs_returns outs s1); by eexists).
              naive_solver.
           ++ split; [by intros [? ?] |]. intros [[_ Ho] _].
              specialize (Ho outs eq_refl).
              apply (scan_outputs_returns outs s1) in Ho as [? ?]. congruence.
           ++ split; [by intros [? ?] |]. intros [[_ Ho] _].
              specialize (Ho outs eq_refl).
              apply (scan_outputs_returns outs s1) in Ho as [? ?]. congruence.
        -- simpl. rewrite IH. naive_solver.
      * split; [by intros [? ?] |]. intros [[Hi _] _].
        specialize (Hi ins eq_refl).
        apply (scan_inputs_returns ins s) in Hi as [? ?]. congruence.
      * split; [by intros [? ?] |]. intros [[Hi _] _].
        specialize (Hi ins eq_refl).
        apply (scan_inputs_returns ins s) in Hi as [? ?]. congruence.
    + simpl. destruct (outputs tx) as [outs|] eqn:Houts.
      * destruct (scan_outputs outs s) as [s2| |] eqn:Hs2; simpl.
        -- rewrite IH.
           assert (Forall (λ out, is_Some (recipient out)) outs)
             by (apply (scan_outputs_returns outs s); by eexists).
           naive_solver.
        -- split; [by intros [? ?] |]. intros [[_ Ho] _].
           specialize (Ho outs eq_refl).
           apply (scan_outputs_returns outs s) in Ho as [? ?]. congruence.
        -- split; [by intros [? ?] |]. intros [[_ Ho] _].
           specialize (Ho outs eq_refl).
           apply (scan_outputs_returns outs s) in Ho as [? ?]. congruence.
      * simpl. rewrite IH. naive_solver.
Qed.

Lemma amounts_of_returns txs :
  returns (amounts_of txs) ↔ Forall has_values txs.
Proof.
  induction txs as [|tx txs IH]; simpl.
  - split; [constructor | by eexists].
  - rewrite Forall_cons, <- IH. unfold has_values at 1, values_of_tx.
    destruct (outputs tx) as [outs|] eqn:Houts; simpl.
    + destruct (values_of outs) as [here| |] eqn:Hhere; simpl.
      * assert (Forall (λ out, is_Some (value out)) outs)
          by (apply values_of_returns; by eexists).
        destruct (amounts_of txs) as [rest| |]; simpl.
        -- split; [intros _ | by eexists]. split; [naive_solver | by eexists].
        -- split; [by intros [? ?] | by intros [_ [? ?]]].
        -- split; [by intros [? ?] | by intros [_ [? ?]]].
      * split; [by intros [? ?] |]. intros [Hv _].
        specialize (Hv outs eq_refl).
        apply values_of_returns in Hv as [? ?]. congruence.
      * split; [by intros [? ?] |]. intros [Hv _].
        specialize (Hv outs eq_refl).
        apply values_of_returns in Hv as [? ?]. congruence.
    + destruct (amounts_of txs) as [rest| |]; simpl.
      * split; [intros _ | by eexists]. split; [naive_solver | by eexists].
      * split; [by intros [? ?] | by intros [_ [? ?]]].
      * split; [by intros [? ?] | by intros [_ [? ?]]].
Qed.

(** The weighted sum over the six factors of the source. *)
Lemma weighted_score_of_six (f1 f2 f3 f4 f5 f6 : Q) :
  weighted_score_of
    [ ("address_diversity", f1); ("timing_randomness", f2);
      ("amount_diversity", f3); ("transaction_structure", f4);
      ("script_diversity", f5); ("size_consistency", f6) ]
  = Ok (0 + f1 * (3 # 10) + f2 * (2 # 10) + f3 * (2 # 10)
        + f4 * (15 # 100) + f5 * (1 # 10) + f6 * (5 # 100))%Q.
Proof. reflexivity. Qed.

Lemma calculate_privacy_score_returns txs target_address :
  returns (calculate_privacy_score txs target_address) ↔ Forall normalised txs.
Proof.
  assert (Forall normalised txs
          ↔ Forall has_addresses txs ∧ Forall has_values txs) as ->.
  { rewrite !Forall_forall. setoid_rewrite normalised_split. naive_solver. }
  rewrite <- (scan_transactions_returns txs reuse0), <- amounts_of_returns.
  destruct txs as [|tx txs]; [split; [split |]; by eexists |].
  unfold calculate_privacy_score. cbv beta iota.
  destruct (scan_transactions (tx :: txs) reuse0) as [usage| |];
    cbn [mbind result_bind];
    [| split; [by intros [? ?] | by intros [[? ?] _]] ..].
  destruct (amounts_of (tx :: txs)) as [amounts| |];
    cbn [mbind result_bind];
    [| split; [by intros [? ?] | by intros [_ [? ?]]] ..].
  split; [intros _; split; by eexists | intros _].
  cbv zeta. rewrite weighted_score_of_six. by eexists.
Qed.

(** *** What is raised otherwise *)

Lemma scan_inputs_outcome l s :
  returns (scan_inputs l s) ∨ scan_inputs l s = KeyError "sender".
Proof.
  revert s. induction l as [|inp l IH]; intros s; simpl; [left; by eexists |].
  destruct (sender inp); [apply IH | by right].
Qed.

Lemma scan_outputs_outcome l s :
  returns (scan_outputs l s) ∨ scan_outputs l s = KeyError "recipient".
Proof.
  revert s. induction l as [|out l IH]; intros s; simpl; [left; by eexists |].
  destruct (recipient out); [apply IH | by right].
Qed.

Lemma scan_transactions_outcome txs s :
  returns (scan_transactions txs s)
  ∨ scan_transactions txs s = KeyError "sender"
  ∨ scan_transactions txs s = KeyError "recipient".
Proof.
  revert s. induction txs as [|tx txs IH]; intros s; simpl;
    [left; by eexists |].
  assert (∀ s1, returns (match outputs tx with
                         | Some l => scan_outputs l s1
                         | None => Ok s1
                         end ≫= scan_transactions txs)
                ∨ (match outputs tx with
                   | Some l => scan_outputs l s1
                   | None => Ok s1
                   end ≫= scan_transactions txs) = KeyError "sender"
                ∨ (match outputs tx with
                   | Some l => scan_outputs l s1
                   | None => Ok s1
                   end ≫= scan_transactions txs) = KeyError "recipient")
    as Houts.
  { intros s1. destruct (outputs tx) as [outs|]; [| apply IH].
    destruct (scan_outputs_outcome outs s1) as [[s2 ->]| ->];
      [apply IH | by right; right]. }
  destruct (inputs tx) as [ins|]; [| apply Houts].
  destruct (scan_inputs_outcome ins s) as [[s1 ->]| ->];
    [apply Houts | by right; left].
Qed.

Lemma values_of_outcome l :
  returns (values_of l) ∨ values_of l = KeyError "value".
Proof.
  induction l as [|out l IH]; simpl; [left; by eexists |].
  destruct (value out); [| by right].
  destruct IH as [[vs ->]| ->]; [left; by eexists | by right].
Qed.

Lemma amounts_of_outcome txs :
  returns (amounts_of txs) ∨ amounts_of txs = KeyError "value".
Proof.
  induction txs as [|tx txs IH]; simpl; [left; by eexists |].
  unfold values_of_tx. destruct (outputs tx) as [outs|].
  - destruct (values_of_outcome outs) as [[here ->]| ->]; [| by right].
    destruct IH as [[rest ->]| ->]; [left; by eexists | by right].
  - destruct IH as [[rest ->]| ->]; [left; by eexists | by right].
Qed.

Lemma calculate_privacy_score_outcome txs target_address :
  returns (calculate_privacy_score txs target_address)
  ∨ ∃ key, calculate_privacy_score txs target_address = KeyError key
           ∧ key ∈ ["sender"; "recipient"; "value"].
Proof.
  destruct txs as [|tx txs]; [left; by eexists |].
  unfold calculate_privacy_score. cbv beta iota.
  destruct (scan_transactions_outcome (tx :: txs) reuse0)
    as [[usage ->]|[-> | ->]]; cbn [mbind result_bind];
    [| right; eexists; split; [done | set_solver] ..].
  destruct (amounts_of_outcome (tx :: txs)) as [[amounts ->]| ->];
    cbn [mbind result_bind];
    [| right; eexists; split; [done | set_solver]].
  left. cbv zeta. rewrite weighted_score_of_six. by eexists.
Qed.

(** *** Every factor is a percentage *)

Section Bounds.

Local Open Scope Q_scope.

Lemma reuse_ratio_nonneg usage : 0 <= reuse_ratio usage.
Proof.
  unfold reuse_ratio. apply Qle_shift_div_l.
  - change 0 with (inject_Z 0). rewrite <- Zlt_Qlt. lia.
  - rewrite Qmult_0_l. change 0 with (inject_Z 0). rewrite <- Zle_Qle. lia.
Qed.

Lemma address_diversity_bounds usage target_address :
  0 <= factor (address_diversity usage target_address) <= 100.
Proof.
  cbn [factor address_diversity]. apply Qmin_bounds.
  pose proof (reuse_ratio_nonneg usage). lra.
Qed.

Lemma regular_pattern_bounds intervals :
  0 <= regular_pattern_of intervals <= 1.
Proof. apply ratio_bounds, count_if_bounds. Qed.

Lemma timing_randomness_bounds transactions :
  0 <= factor (timing_randomness transactions) <= 100.
Proof.
  unfold timing_randomness. case_bool_decide; cbn [factor]; [| lra].
  pose proof (regular_pattern_bounds
                (intervals_of (merge_sort Z.le (timestamps_of transactions)))).
  lra.
Qed.

Lemma amount_diversity_bounds amounts :
  0 <= factor (amount_diversity amounts) <= 100.
Proof.
  destruct amounts as [|a amounts]; cbn [factor amount_diversity]; [lra |].
  apply Qmax_bounds.
  pose proof (ratio_bounds (round_amounts_of (a :: amounts)) (a :: amounts)
                (count_if_bounds _ _)).
  lra.
Qed.

Lemma simple_tx_ratio_bounds transactions :
  0 <= simple_tx_ratio_of transactions <= 1.
Proof.
  unfold simple_tx_ratio_of. apply ratio_bounds.
  pose proof (count_if_bounds is_simple
    (combine (input_counts_of transactions) (output_counts_of transactions))).
  rewrite length_combine in *.
  unfold input_counts_of, output_counts_of in *.
  rewrite !length_map in *. lia.
Qed.

Lemma transaction_structure_bounds transactions :
  0 <= factor (transaction_structure transactions) <= 100.
Proof.
  cbn [factor transaction_structure]. apply Qmin_bounds.
  pose proof (simple_tx_ratio_bounds transactions). lra.
Qed.

Lemma script_diversity_bounds transactions :
  0 <= factor (script_diversity transactions) <= 100.
Proof.
  cbn [factor script_diversity]. apply Qmin_bounds.
  assert (0 <= inject_Z (Z.of_nat (size (script_types_of transactions)))).
  { change 0 with (inject_Z 0). rewrite <- Zle_Qle. lia. }
  lra.
Qed.

Lemma size_consistency_bounds transactions :
  0 <= factor (size_consistency transactions) <= 100.
Proof.
  unfold size_consistency.
  destruct (sizes_of transactions); cbn [factor]; [lra |].
  apply Qmin_bounds, Q.le_max_l.
Qed.

End Bounds.

(** *** Records built by [get_transaction_data] *)

Lemma get_transaction_data_normalised response tx :
  get_transaction_data response = Some tx →
  normalised tx ∧ input_count tx = None ∧ output_count tx = None.
Proof.
  unfold get_transaction_data. intros Htx.
  destruct response as [data|]; [| done]. simpl in Htx.
  destruct (txid data); [| done]. simpl in Htx.
  destruct (status data) as [st|]; [| done]. simpl in Htx.
  injection Htx as <-. split; [| done]. split; simpl; intros l [= <-].
  - apply Forall_forall. intros inp [raw [-> _]]%list_elem_of_fmap.
    by eexists.
  - apply Forall_forall. intros out [raw [-> _]]%list_elem_of_fmap.
    split; by eexists.
Qed.

(** Without the count keys no transaction is simple. *)
Lemma simple_tx_ratio_without_counts transactions :
  Forall (λ tx, input_count tx = None ∧ output_count tx = None) transactions →
  (simple_tx_ratio_of transactions == 0)%Q.
Proof.
  intros Hall. unfold simple_tx_ratio_of.
  assert (count_if is_simple
            (combine (input_counts_of transactions)
                     (output_counts_of transactions)) = 0) as ->.
  { unfold count_if, input_counts_of, output_counts_of.
    induction Hall as [|tx txs [Hi Ho] _ IH]; [done |].
    simpl. rewrite Hi, Ho. simpl. exact IH. }
  apply Qmult_0_l.
Qed.

Lemma transaction_structure_without_counts transactions :
  Forall (λ tx, input_count tx = None ∧ output_count tx = None) transactions →
  (factor (transaction_structure transactions) == 20)%Q.
Proof.
  intros Hall. cbn [factor transaction_structure].
  rewrite (simple_tx_ratio_without_counts _ Hall).
  apply Q.min_l. discriminate.
Qed.

(** Whatever the explorer answered, the records it yields score 20. *)
Lemma transaction_structure_of_fetched responses transactions :
  Forall2 (λ response tx, get_transaction_data response = Some tx)
          responses transactions →
  (factor (transaction_structure transactions) == 20)%Q.
Proof.
  intros Hall. apply transaction_structure_without_counts.
  induction Hall as [|response tx responses txs Htx _ IH]; [constructor |].
  constructor; [| done].
  by apply get_transaction_data_normalised in Htx as [_ ?].
Qed.

(** *** Intervals between sorted timestamps *)


Lemma intervals_of_length (ts : list Z) :
  length (intervals_of ts) = pred (length ts).
Proof.
  induction ts as [|a [|b ts] IH]; [done | done |].
  change (intervals_of (a :: b :: ts)) with ((b - a) :: intervals_of (b :: ts)).
  simpl length in *. lia.
Qed.

Lemma is_regular_spec mean interval :
  is_regular mean interval = true
  ↔ (Qabs (inject_Z interval - mean) < 3600)%Q.
Proof. apply Qltb_lt. Qed.

(** What [calculate_privacy_score] returns on a non-empty list. *)
Lemma calculate_privacy_score_cons tx txs target_address r :
  calculate_privacy_score (tx :: txs) target_address = Ok r →
  ∃ usage amounts,
    scan_transactions (tx :: txs) reuse0 = Ok usage
    ∧ amounts_of (tx :: txs) = Ok amounts
    ∧ factors r =
        [ ("address_diversity", factor (address_diversity usage target_address));
          ("timing_randomness", factor (timing_randomness (tx :: txs)));
          ("amount_diversity", factor (amount_diversity amounts));
          ("transaction_structure", factor (transaction_structure (tx :: txs)));
          ("script_diversity", factor (script_diversity (tx :: txs)));
          ("size_consistency", factor (size_consistency (tx :: txs))) ]
    ∧ score r =
        round2 (0 + factor (address_diversity usage target_address) * (3 # 10)
                + factor (timing_randomness (tx :: txs)) * (2 # 10)
                + factor (amount_diversity amounts) * (2 # 10)
                + factor (transaction_structure (tx :: txs)) * (15 # 100)
                + factor (script_diversity (tx :: txs)) * (1 # 10)
                + factor (size_consistency (tx :: txs)) * (5 # 100))%Q.
Proof.
  unfold calculate_privacy_score. cbv beta iota.
  destruct (scan_transactions (tx :: txs) reuse0) as [usage| |];
    cbn [mbind result_bind]; [| done ..].
  destruct (amounts_of (tx :: txs)) as [amounts| |];
    cbn [mbind result_bind]; [| done ..].
  cbv zeta. rewrite weighted_score_of_six. cbn [mbind result_bind].
  intros [= <-]. by exists usage, amounts.
Qed.

End addressny_facts.

Import addressny addressny_facts.

(** C1.  On every non-empty transaction list whose entries carry their
    sender, recipient and value, [calculate_privacy_score] returns; and
    whatever it returns on a non-empty list has exactly the six factors, in
    the order of the source, each between 0 and 100, and a score between 0
    and 100 that is the weighted sum of the factors (weights .30, .20, .20,
    .15, .10, .05) rounded to two decimal places: the score is a number of
    hundredths, and no further than half a hundredth from the sum.  Both
    are stated up to [binary64_slack], so that they read the same of the
    doubles of the source, where a sum that lies within the rounding error
    of a tie may go to either neighbour. *)
Theorem calculate_privacy_score_weighted (transactions : list Tx)
    (target_address : string) :
  transactions ≠ [] →
  (Forall normalised transactions →
   returns (calculate_privacy_score transactions target_address))
  ∧ ∀ r, calculate_privacy_score transactions target_address = Ok r →
      ∃ f1 f2 f3 f4 f5 f6 : Q,
        factors r =
          [ ("address_diversity", f1); ("timing_randomness", f2);
            ("amount_diversity", f3); ("transaction_structure", f4);
            ("script_diversity", f5); ("size_consistency", f6) ]
        ∧ Forall (λ f, 0 <= f <= 100)%Q [f1; f2; f3; f4; f5; f6]
        ∧ (∃ hundredths : Z,
             Qabs (score r - inject_Z hundredths / 100) <= binary64_slack
             ∧ Qabs (score r
                     - (f1 * (3 # 10) + f2 * (2 # 10) + f3 * (2 # 10)
                        + f4 * (15 # 100) + f5 * (1 # 10) + f6 * (5 # 100)))
               <= (1 # 200) + binary64_slack)%Q
        ∧ (0 <= score r <= 100)%Q.
Proof.
  intros Hne. split; [apply calculate_privacy_score_returns |].
  destruct transactions as [|tx txs]; [done |]. intros r Hr.
  apply calculate_privacy_score_cons in Hr
    as (usage & amounts & _ & _ & Hfactors & Hscore).
  pose proof (address_diversity_bounds usage target_address).
  pose proof (timing_randomness_bounds (tx :: txs)).
  pose proof (amount_diversity_bounds amounts).
  pose proof (transaction_structure_bounds (tx :: txs)).
  pose proof (script_diversity_bounds (tx :: txs)).
  pose proof (size_consistency_bounds (tx :: txs)).
  eexists _, _, _, _, _, _. split; [exact Hfactors |].
  split; [repeat (apply List.Forall_cons; [assumption |]); apply List.Forall_nil |].
  split; [| rewrite Hscore; apply round2_bounds; lra].
  rewrite Hscore.
  match goal with |- context [round2 ?x] =>
    pose proof (round2_near x) as Hnear; exists (round_half_even (x * 100));
    set (sum := x) in * end.
  apply Qabs_Qle_condition in Hnear. unfold binary64_slack. split.
  - unfold round2. apply Qabs_Qle_condition.
    set (q := (inject_Z (round_half_even (sum * 100)) / 100)%Q). lra.
  - apply Qabs_Qle_condition. subst sum.
    set (rounded := round2 _) in *. lra.
Qed.

Lemma calculate_privacy_score_weighted_witness :
  [score_samples.one_in_two_out] ≠ []
  ∧ ∃ r, calculate_privacy_score [score_samples.one_in_two_out] "A" = Ok r
         ∧ (0 <= score r <= 100)%Q.
Proof.
  split; [discriminate |].
  destruct (calculate_privacy_score_weighted [score_samples.one_in_two_out] "A")
    as [Hret Hres]; [discriminate |].
  destruct Hret as [r Hr].
  { repeat constructor; intros l [= <-]; repeat constructor; by eexists. }
  exists r. split; [exact Hr |].
  destruct (Hres r Hr) as (? & ? & ? & ? & ? & ? & _ & _ & _ & Hb). exact Hb.
Defined.

(** C2.  On the empty transaction list, whatever the target address, the
    result is exactly score 0 with no factors, no recommendations and no
    details. *)
Theorem calculate_privacy_score_empty (target_address : string) :
  calculate_privacy_score [] target_address
  = Ok {| score := 0; factors := []; recommendations := []; details := [] |}.
Proof. reflexivity. Qed.

(** C3, as the code has it.  [calculate_privacy_score] returns a result
    exactly when every input entry it visits has a sender and every output
    entry a recipient and a value, as the entries [get_transaction_data]
    builds do; absent [inputs], [outputs], [timestamp], [size], count and
    [script_type] keys are defaulted.  An entry lacking one of the three
    fields is not skipped: the lookup raises [KeyError] and no result is
    returned. *)
Theorem calculate_privacy_score_total_on_normalised (transactions : list Tx)
    (target_address : string) :
  (returns (calculate_privacy_score transactions target_address)
   ↔ Forall normalised transactions)
  ∧ (¬ Forall normalised transactions →
     ∃ key, calculate_privacy_score transactions target_address = KeyError key
            ∧ key ∈ ["sender"; "recipient"; "value"])
  ∧ (∀ response tx, get_transaction_data response = Some tx → normalised tx).
Proof.
  split; [apply calculate_privacy_score_returns |]. split.
  - intros Hnot.
    destruct (calculate_privacy_score_outcome transactions target_address)
      as [Hret|Hraise]; [| done].
    by apply calculate_privacy_score_returns in Hret.
  - intros response tx Htx.
    by apply get_transaction_data_normalised in Htx as [? _].
Qed.

Lemma calculate_privacy_score_total_on_normalised_witness :
  returns (calculate_privacy_score [score_samples.one_in_two_out] "A")
  ∧ ∃ key, calculate_privacy_score [score_samples.no_sender] "A" = KeyError key
           ∧ key ∈ ["sender"; "recipient"; "value"].
Proof.
  split.
  - apply (calculate_privacy_score_total_on_normalised
             [score_samples.one_in_two_out] "A").
    repeat constructor; intros l [= <-]; repeat constructor; by eexists.
  - apply (calculate_privacy_score_total_on_normalised
             [score_samples.no_sender] "A").
    intros Hall. apply Forall_cons in Hall as [[Hins _] _].
    specialize (Hins _ eq_refl). apply Forall_cons in Hins as [[? ?] _].
    done.
Defined.

(** C3 fails as stated: an input entry without sender aborts the whole
    computation with a [KeyError]. *)
Lemma calculate_privacy_score_missing_sender_raises :
  calculate_privacy_score [score_samples.no_sender] "A" = KeyError "sender"
  ∧ ¬ returns (calculate_privacy_score [score_samples.no_sender] "A").
Proof. split; [reflexivity | by intros [r Hr]]. Qed.

(** C4.  The record [get_transaction_data] builds for a transaction with
    exactly one input and exactly two outputs has neither count key, so the
    defaults 1 and 1 are compared and the transaction is not counted as
    simple: scored alone, its transaction_structure factor is 20, not 100. *)
Theorem transaction_structure_one_in_two_out :
  get_transaction_data (Some score_samples.raw_one_in_two_out)
  = Some score_samples.one_in_two_out
  ∧ length <$> inputs score_samples.one_in_two_out = Some 1%nat
  ∧ length <$> outputs score_samples.one_in_two_out = Some 2%nat
  ∧ ∃ r f, calculate_privacy_score [score_samples.one_in_two_out] "A" = Ok r
           ∧ getitem (factors r) "transaction_structure" = Ok f
           ∧ (f == 20)%Q ∧ ¬ (f == 100)%Q.
Proof.
  repeat split.
  eexists _, _. split; [vm_compute; reflexivity |].
  split; [vm_compute; reflexivity |]. split; [reflexivity | discriminate].
Qed.

(** With the count keys of a summary the same transaction is simple. *)
Example transaction_structure_with_count_keys :
  ∃ r f, calculate_privacy_score [score_samples.counted_one_in_two_out] "A"
         = Ok r
         ∧ getitem (factors r) "transaction_structure" = Ok f
         ∧ (f == 100)%Q.
Proof.
  eexists _, _. split; [vm_compute; reflexivity |].
  split; [vm_compute; reflexivity | reflexivity].
Qed.




(** * Properties of the graph library model *)

Module nx_facts.
Import nx.

(** *** Neighbours *)

Lemma elem_of_neighbors G a b :
  b ∈ neighbors G a ↔ is_Some (edges G !! (a, b)).
Proof.
  unfold neighbors. rewrite list_elem_of_omap. split.
  - intros ([u v] & Hin & Hsel). simpl in Hsel.
    case_decide; [| done]. injection Hsel as ->. subst u.
    by apply elem_of_elements, elem_of_dom in Hin.
  - intros Hedge. exists (a, b). split.
    + by apply elem_of_elements, elem_of_dom.
    + simpl. by rewrite decide_True.
Qed.

Lemma elem_of_predecessors G a b :
  b ∈ predecessors G a ↔ is_Some (edges G !! (b, a)).
Proof.
  unfold predecessors. rewrite list_elem_of_omap. split.
  - intros ([u v] & Hin & Hsel). simpl in Hsel.
    case_decide; [| done]. injection Hsel as ->. subst v.
    by apply elem_of_elements, elem_of_dom in Hin.
  - intros Hedge. exists (b, a). split.
    + by apply elem_of_elements, elem_of_dom.
    + simpl. by rewrite decide_True.
Qed.

Lemma elem_of_undirected_neighbors G a b :
  b ∈ undirected_neighbors G a ↔ linked G a b.
Proof.
  unfold undirected_neighbors, linked.
  by rewrite elem_of_list_to_set, elem_of_app, elem_of_neighbors,
    elem_of_predecessors.
Qed.

Lemma elem_of_frontier G (seen : gset string) b :
  b ∈ ⋃ (undirected_neighbors G <$> elements seen)
  ↔ ∃ a, a ∈ seen ∧ linked G a b.
Proof.
  rewrite elem_of_union_list. split.
  - intros (X & HX & Hb). apply list_elem_of_fmap in HX as (a & -> & Ha).
    exists a. split; [by apply elem_of_elements |].
    by apply elem_of_undirected_neighbors.
  - intros (a & Ha & Hab). exists (undirected_neighbors G a). split.
    + apply list_elem_of_fmap. exists a. split; [done |].
      by apply elem_of_elements.
    + by apply elem_of_undirected_neighbors.
Qed.

(** *** The search computes the connected component *)

Lemma reach_mono G rounds (seen : gset string) : seen ⊆ reach G rounds seen.
Proof.
  revert seen. induction rounds as [|rounds IH]; intros seen; [done |].
  simpl. etrans; [| apply IH]. apply union_subseteq_l.
Qed.

Lemma reach_sound G rounds (seen : gset string) m :
  m ∈ reach G rounds seen → ∃ s, s ∈ seen ∧ rtc (linked G) s m.
Proof.
  revert seen. induction rounds as [|rounds IH]; intros seen Hm.
  { by exists m. }
  simpl in Hm. apply IH in Hm as (s & Hs & Hsm).
  apply elem_of_union in Hs as [Hs|Hs]; [by exists s |].
  apply elem_of_frontier in Hs as (a & Ha & Has).
  exists a. split; [done |]. by eapply rtc_l.
Qed.

Lemma reach_closed_fixed G rounds (seen : gset string) :
  closed G seen → reach G rounds seen = seen.
Proof.
  intros Hclosed. induction rounds as [|rounds IH]; [done |].
  simpl.
  assert (seen ∪ ⋃ (undirected_neighbors G <$> elements seen) = seen) as ->;
    [| done].
  apply set_eq. intros b.
  rewrite elem_of_union, elem_of_frontier. split; [| by left].
  intros [Hb|(a & Ha & Hab)]; [done | by eapply Hclosed].
Qed.

Lemma reach_closed G rounds (seen : gset string) :
  well_formed G → seen ⊆ dom (nodes G) →
  (size (nodes G) ≤ size seen + rounds)%nat →
  closed G (reach G rounds seen).
Proof.
  intros Hwf. revert seen.
  induction rounds as [|rounds IH]; intros seen Hsub Hsize.
  - simpl. rewrite <- (size_dom (D := gset string)) in Hsize.
    apply set_subseteq_size_eq in Hsub as ->; [| lia].
    intros a b _ [Hab|Hba]; apply elem_of_dom.
    + by apply Hwf in Hab as [_ ?].
    + by apply Hwf in Hba as [? _].
  - simpl. set (next := seen ∪ ⋃ (undirected_neighbors G <$> elements seen)).
    assert (next ⊆ dom (nodes G)) as Hnext.
    { intros b [Hb|Hb]%elem_of_union; [by apply Hsub |].
      apply elem_of_frontier in Hb as (a & _ & [Hab|Hba]); apply elem_of_dom.
      - by apply Hwf in Hab as [_ ?].
      - by apply Hwf in Hba as [? _]. }
    destruct (decide (next ⊆ seen)) as [Hfix|Hgrow].
    + assert (closed G seen) as Hclosed.
      { intros a b Ha Hab. apply Hfix, elem_of_union. right.
        apply elem_of_frontier. by exists a. }
      assert (next = seen) as ->.
      { apply set_eq. intros b. split; [apply Hfix |].
        intros Hb. by apply elem_of_union; left. }
      by rewrite reach_closed_fixed.
    + apply IH; [done |].
      assert (seen ⊂ next) as Hlt%subset_size; [| lia].
      split; [apply union_subseteq_l | done].
Qed.

Lemma closed_rtc G (S : gset string) a b :
  closed G S → a ∈ S → rtc (linked G) a b → b ∈ S.
Proof.
  intros Hclosed Ha Hab. induction Hab as [|a c b Hac _ IH]; [done |].
  apply IH. by eapply Hclosed.
Qed.

(** The component of a node is the set of the nodes joined to it by a
    chain of edges, whatever their direction. *)
Lemma node_connected_component_spec G n m :
  well_formed G → is_Some (nodes G !! n) →
  m ∈ node_connected_component G n ↔ rtc (linked G) n m.
Proof.
  intros Hwf Hn. unfold node_connected_component. split.
  - intros (s & ->%elem_of_singleton & Hsm)%reach_sound. done.
  - intros Hnm. eapply closed_rtc; [| | done].
    + apply reach_closed; [done | |].
      * intros a ->%elem_of_singleton. by apply elem_of_dom.
      * rewrite size_singleton. lia.
    + apply reach_mono. by apply elem_of_singleton.
Qed.

(** *** Graphs built with [add_node] and [add_edge] are well formed *)

Lemma well_formed_empty : well_formed empty.
Proof. intros a b [e He]. cbn [empty edges] in He. by rewrite lookup_empty in He. Qed.

Lemma well_formed_add_node n t G : well_formed G → well_formed (add_node n t G).
Proof.
  intros Hwf a b Hab. destruct (Hwf a b Hab) as [[ta Ha] [tb Hb]].
  cbn [add_node nodes]. rewrite !lookup_insert. 
  split; case_decide; by eexists.
Qed.

Lemma touch_keeps n (ns : gmap string (option string)) a :
  is_Some (ns !! a) → is_Some (touch n ns !! a).
Proof.
  intros Ha. unfold touch. destruct (ns !! n) eqn:Hn; [done |].
  rewrite lookup_insert. case_decide; [by eexists | done].
Qed.

Lemma touch_adds n (ns : gmap string (option string)) :
  is_Some (touch n ns !! n).
Proof.
  unfold touch. destruct (ns !! n) eqn:Hn; [by eexists |].
  rewrite lookup_insert_eq. by eexists.
Qed.

Lemma well_formed_add_edge u v d G : well_formed G → well_formed (add_edge u v d G).
Proof.
  intros Hwf a b Hab. cbn [add_edge nodes edges] in *.
  rewrite lookup_insert in Hab. case_decide as Huv.
  - injection Huv as <- <-. split.
    + apply touch_keeps, touch_adds.
    + apply touch_adds.
  - destruct (Hwf a b Hab). split; by apply touch_keeps, touch_keeps.
Qed.

End nx_facts.

(** * Properties of the address graph and of the clustering *)

Module transactionny_facts.
Import transactionny.

(** *** The scan of a component *)

Lemma new_cluster_found_unassigned (reg : gmap string Z) component found :
  new_cluster_found reg component found = true →
  Forall (λ a, reg !! a = None) component.
Proof.
  revert found. induction component as [|a component IH]; intros found;
    [constructor |].
  simpl. case_decide as Ha; [done |]. intros Hrest. constructor.
  - by apply eq_None_not_Some.
  - by eapply IH.
Qed.

Lemma new_cluster_found_assigned (reg : gmap string Z) component found a :
  a ∈ component → is_Some (reg !! a) →
  new_cluster_found reg component found = false.
Proof.
  intros Hin Ha. apply not_true_is_false. intros Hfound.
  apply new_cluster_found_unassigned in Hfound.
  rewrite Forall_forall in Hfound. specialize (Hfound a Hin).
  rewrite Hfound in Ha. by destruct Ha.
Qed.

Lemma assign_all_cons b component id (reg : gmap string Z) :
  assign_all (b :: component) id reg = assign_all component id (<[b := id]> reg).
Proof. reflexivity. Qed.

Lemma assign_all_other component id (reg : gmap string Z) a :
  a ∉ component → assign_all component id reg !! a = reg !! a.
Proof.
  revert reg. induction component as [|b component IH]; intros reg Hnot;
    [done |].
  apply not_elem_of_cons in Hnot as [Hne Hnot].
  rewrite assign_all_cons, IH by done. by rewrite lookup_insert_ne.
Qed.

Lemma assign_all_member component id (reg : gmap string Z) a :
  a ∈ component → assign_all component id reg !! a = Some id.
Proof.
  revert reg. induction component as [|b component IH]; intros reg Hin;
    [by apply elem_of_nil in Hin |].
  rewrite assign_all_cons.
  destruct (decide (a ∈ component)) as [Hc|Hc]; [by apply IH |].
  apply elem_of_cons in Hin as [->|]; [| done].
  rewrite assign_all_other by done. apply lookup_insert_eq.
Qed.

(** *** Assigned ids are kept *)

Lemma cluster_step_keeps G st address a id :
  registry st !! a = Some id →
  registry (cluster_step G st address) !! a = Some id.
Proof.
  intros Ha. unfold cluster_step.
  case_decide as Hassigned; [done |].
  destruct (nx.has_node G address).
  - destruct (new_cluster_found _ _ _) eqn:Hfound; [| done].
    cbn [registry]. rewrite assign_all_other; [done |].
    intros Hin. apply new_cluster_found_unassigned in Hfound.
    rewrite Forall_forall in Hfound. specialize (Hfound a Hin). congruence.
  - cbn [registry]. rewrite lookup_insert_ne; [done |].
    intros ->. apply Hassigned. by eexists.
Qed.

Lemma cluster_loop_keeps G addresses st a id :
  registry st !! a = Some id →
  registry (foldl (cluster_step G) st addresses) !! a = Some id.
Proof.
  revert st. induction addresses as [|address addresses IH]; intros st Ha;
    [done |].
  simpl. by apply IH, cluster_step_keeps.
Qed.

Lemma cluster_addresses_keeps addresses self a id :
  address_clusters self !! a = Some id →
  address_clusters (cluster_addresses addresses self).1 !! a = Some id.
Proof. intros Ha. by apply cluster_loop_keeps. Qed.

Lemma run_call_keeps self c a id :
  address_clusters self !! a = Some id →
  address_clusters (run_call self c) !! a = Some id.
Proof.
  destruct c as [[tx_data|] tx_hash|addresses]; simpl; [done | done |].
  apply cluster_addresses_keeps.
Qed.

Lemma run_keeps calls self a id :
  address_clusters self !! a = Some id →
  address_clusters (run calls self) !! a = Some id.
Proof.
  unfold run. revert self.
  induction calls as [|c calls IH]; intros self Ha; [done |].
  simpl. by apply IH, run_call_keeps.
Qed.

(** *** Ids within one call *)

(** Within one call the ids handed out are [0], [1], ... in order. *)
Lemma cluster_loop_ids G addresses st :
  (0 ≤ cluster_id st)%Z →
  (∀ k, is_Some (clusters st !! k) ↔ (0 ≤ k < cluster_id st)%Z) →
  let st' := foldl (cluster_step G) st addresses in
  (cluster_id st ≤ cluster_id st')%Z
  ∧ ∀ k, is_Some (clusters st' !! k) ↔ (0 ≤ k < cluster_id st')%Z.
Proof.
  revert st. induction addresses as [|address addresses IH]; intros st H0 Hdom.
  { simpl. split; [lia | done]. }
  simpl.
  assert ((cluster_id st ≤ cluster_id (cluster_step G st address))%Z
          ∧ ∀ k, is_Some (clusters (cluster_step G st address) !! k)
                 ↔ (0 ≤ k < cluster_id (cluster_step G st address))%Z)
    as [Hle Hdom'].
  { unfold cluster_step. case_decide; [split; [lia | done] |].
    destruct (nx.has_node G address);
      [destruct (new_cluster_found _ _ _); [| split; [lia | done]] |];
      cbn [cluster_id clusters]; (split; [lia |]); intros k;
      rewrite lookup_insert; case_decide; subst;
      rewrite ?Hdom; split; intros; try lia; by eexists. }
  destruct (IH (cluster_step G st address)) as [Hle' Hdom'']; [lia | done |].
  split; [lia | done].
Qed.

(** *** The graph after a transaction *)

Lemma last_value_to_standard b outputs :
  is_Some (last_value_to b outputs) ↔ b ∈ standard_addresses outputs.
Proof.
  unfold standard_addresses.
  induction outputs as [|out outputs IH]; simpl.
  - split; [by intros [? ?] | by intros ?%elem_of_nil].
  - destruct (last_value_to b outputs) as [v|].
    + split; [intros _ | by eexists].
      destruct (standard (recipient out)); [right |]; apply IH; by eexists.
    + destruct (standard (recipient out)) as [r|].
      * rewrite elem_of_cons, <- IH. case_decide as Hr.
        -- split; [left; congruence | by eexists].
        -- split; [by intros [? ?] | intros [->|[? ?]]; done].
      * rewrite <- IH. case_decide; [done |]. done.
Qed.

Lemma add_nodes_edges t entries G :
  nx.edges (add_nodes t entries G) = nx.edges G.
Proof.
  unfold add_nodes. revert G.
  induction entries as [|e entries IH]; intros G; [done |].
  simpl. rewrite IH. by destruct (standard (recipient e)).
Qed.

Lemma add_nodes_nodes t entries G n :
  nx.nodes (add_nodes t entries G) !! n
  = if decide (n ∈ standard_addresses entries) then Some (Some t)
    else nx.nodes G !! n.
Proof.
  unfold add_nodes, standard_addresses. revert G.
  induction entries as [|e entries IH]; intros G.
  { cbn [omap list_omap foldl]. case_decide as Hin; [by apply elem_of_nil in Hin | done]. }
  simpl. rewrite IH. destruct (standard (recipient e)) as [r|].
  - repeat case_decide; try done.
    + exfalso. set_solver.
    + cbn [nx.add_node nx.nodes]. rewrite lookup_insert.
      case_decide; [done |]. set_solver.
    + cbn [nx.add_node nx.nodes]. rewrite lookup_insert_ne; [done |].
      set_solver.
  - done.
Qed.

Lemma touch_present n (ns : gmap string (option string)) :
  is_Some (ns !! n) → nx.touch n ns = ns.
Proof. intros [t Ht]. unfold nx.touch. by rewrite Ht. Qed.

Lemma add_edges_from_nodes h a outputs G :
  is_Some (nx.nodes G !! a) →
  Forall (λ b, is_Some (nx.nodes G !! b)) (standard_addresses outputs) →
  nx.nodes (add_edges_from h a outputs G) = nx.nodes G.
Proof.
  unfold add_edges_from, standard_addresses. revert G.
  induction outputs as [|out outputs IH]; intros G Ha Hall; [done |].
  simpl in *. destruct (standard (recipient out)) as [b|]; [| by apply IH].
  apply Forall_cons in Hall as [Hb Hall].
  assert (nx.nodes (nx.add_edge a b
            {| nx.tx_hash := h; nx.value := default 0 (value out) |} G)
          = nx.nodes G) as Hsame.
  { cbn [nx.add_edge nx.nodes]. by rewrite (touch_present a), touch_present. }
  rewrite IH; rewrite Hsame; done.
Qed.

Lemma add_edges_nodes h inputs outputs G :
  Forall (λ a, is_Some (nx.nodes G !! a)) (standard_addresses inputs) →
  Forall (λ b, is_Some (nx.nodes G !! b)) (standard_addresses outputs) →
  nx.nodes (add_edges h inputs outputs G) = nx.nodes G.
Proof.
  unfold add_edges, standard_addresses. revert G.
  induction inputs as [|inp inputs IH]; intros G Hins Houts; [done |].
  simpl in *. destruct (standard (recipient inp)) as [a|]; [| by apply IH].
  apply Forall_cons in Hins as [Ha Hins].
  pose proof (add_edges_from_nodes h a outputs G Ha Houts) as Hsame.
  rewrite IH; rewrite Hsame; done.
Qed.

Lemma add_edges_from_edges h a outputs G a' b' :
  nx.edges (add_edges_from h a outputs G) !! (a', b')
  = if decide (a' = a) then
      match last_value_to b' outputs with
      | Some v => Some {| nx.tx_hash := h; nx.value := v |}
      | None => nx.edges G !! (a', b')
      end
    else nx.edges G !! (a', b').
Proof.
  unfold add_edges_from. revert G.
  induction outputs as [|out outputs IH]; intros G.
  { simpl. by case_decide. }
  simpl. rewrite IH. case_decide as Ha; [subst a' |].
  - destruct (last_value_to b' outputs) as [v|]; [done |].
    destruct (standard (recipient out)) as [b|].
    + cbn [nx.add_edge nx.edges]. case_decide as Hb.
      * injection Hb as ->. by rewrite lookup_insert_eq.
      * rewrite lookup_insert_ne; [done | congruence].
    + by case_decide.
  - destruct (standard (recipient out)) as [b|]; [| done].
    cbn [nx.add_edge nx.edges]. rewrite lookup_insert_ne; [done | congruence].
Qed.

Lemma add_edges_edges h inputs outputs G a' b' :
  nx.edges (add_edges h inputs outputs G) !! (a', b')
  = if decide (a' ∈ standard_addresses inputs) then
      match last_value_to b' outputs with
      | Some v => Some {| nx.tx_hash := h; nx.value := v |}
      | None => nx.edges G !! (a', b')
      end
    else nx.edges G !! (a', b').
Proof.
  unfold add_edges, standard_addresses. revert G.
  induction inputs as [|inp inputs IH]; intros G.
  { cbn [omap list_omap foldl]. case_decide as Hin; [by apply elem_of_nil in Hin | done]. }
  simpl. rewrite IH. destruct (standard (recipient inp)) as [a|]; [| done].
  rewrite add_edges_from_edges.
  destruct (last_value_to b' outputs) as [v|];
    repeat case_decide; try done; exfalso; set_solver.
Qed.

Lemma build_graph_nodes h tx G n :
  nx.nodes (build_graph h tx G) !! n
  = if decide (n ∈ standard_addresses (default [] (outputs tx)))
    then Some (Some "output")
    else if decide (n ∈ standard_addresses (default [] (inputs tx)))
         then Some (Some "input")
         else nx.nodes G !! n.
Proof.
  unfold build_graph. rewrite add_edges_nodes.
  - by rewrite !add_nodes_nodes.
  - apply Forall_forall. intros a Ha. rewrite !add_nodes_nodes.
    repeat case_decide; done.
  - apply Forall_forall. intros b Hb. rewrite !add_nodes_nodes.
    repeat case_decide; done.
Qed.

Lemma build_graph_edges h tx G a b :
  nx.edges (build_graph h tx G) !! (a, b)
  = if decide (a ∈ standard_addresses (default [] (inputs tx))) then
      match last_value_to b (default [] (outputs tx)) with
      | Some v => Some {| nx.tx_hash := h; nx.value := v |}
      | None => nx.edges G !! (a, b)
      end
    else nx.edges G !! (a, b).
Proof.
  unfold build_graph. by rewrite add_edges_edges, !add_nodes_edges.
Qed.

Lemma DiGraph_eq (G1 G2 : nx.DiGraph) :
  nx.nodes G1 = nx.nodes G2 → nx.edges G1 = nx.edges G2 → G1 = G2.
Proof. destruct G1, G2. simpl. by intros -> ->. Qed.

Lemma build_graph_twice h tx G :
  build_graph h tx (build_graph h tx G) = build_graph h tx G.
Proof.
  apply DiGraph_eq; apply map_eq.
  - intros n. rewrite (build_graph_nodes h tx (build_graph h tx G)).
    rewrite (build_graph_nodes h tx G). by repeat case_decide.
  - intros [a b]. rewrite (build_graph_edges h tx (build_graph h tx G)).
    rewrite (build_graph_edges h tx G).
    case_decide; [| done]. by destruct (last_value_to _ _).
Qed.

(** *** The graph of a session is well formed *)

Lemma add_nodes_well_formed t entries G :
  nx.well_formed G → nx.well_formed (add_nodes t entries G).
Proof.
  unfold add_nodes. revert G.
  induction entries as [|e entries IH]; intros G Hwf; [done |].
  simpl. apply IH. destruct (standard (recipient e)); [| done].
  by apply nx_facts.well_formed_add_node.
Qed.

Lemma add_edges_from_well_formed h a outputs G :
  nx.well_formed G → nx.well_formed (add_edges_from h a outputs G).
Proof.
  unfold add_edges_from. revert G.
  induction outputs as [|out outputs IH]; intros G Hwf; [done |].
  simpl. apply IH. destruct (standard (recipient out)); [| done].
  by apply nx_facts.well_formed_add_edge.
Qed.

Lemma add_edges_well_formed h inputs outputs G :
  nx.well_formed G → nx.well_formed (add_edges h inputs outputs G).
Proof.
  unfold add_edges. revert G.
  induction inputs as [|inp inputs IH]; intros G Hwf; [done |].
  simpl. apply IH. destruct (standard (recipient inp)); [| done].
  by apply add_edges_from_well_formed.
Qed.

Lemma build_graph_well_formed h tx G :
  nx.well_formed G → nx.well_formed (build_graph h tx G).
Proof.
  intros Hwf. unfold build_graph.
  by apply add_edges_well_formed, add_nodes_well_formed,
    add_nodes_well_formed.
Qed.

Lemma run_well_formed calls self :
  nx.well_formed (transaction_graph self) →
  nx.well_formed (transaction_graph (run calls self)).
Proof.
  unfold run. revert self.
  induction calls as [|c calls IH]; intros self Hwf; [done |].
  simpl. apply IH.
  destruct c as [[tx_data|] tx_hash|addresses]; simpl; [| done | done].
  by apply build_graph_well_formed.
Qed.

(** *** What the filter keeps out *)

Lemma standard_addresses_standard entries r :
  r ∈ standard_addresses entries → standard (Some r) = Some r.
Proof.
  unfold standard_addresses. intros (e & _ & He)%list_elem_of_omap.
  unfold standard in *. destruct (recipient e) as [r'|]; [| done].
  repeat case_decide; try done; injection He as ->; done.
Qed.

(** An address the filter rejects, the empty string and ["nonstandard"],
    is left as it was: no node, no edge from it and no edge to it is
    added. *)
Lemma build_graph_filters h tx G n :
  standard (Some n) = None →
  nx.nodes (build_graph h tx G) !! n = nx.nodes G !! n
  ∧ ∀ m, nx.edges (build_graph h tx G) !! (n, m) = nx.edges G !! (n, m)
         ∧ nx.edges (build_graph h tx G) !! (m, n) = nx.edges G !! (m, n).
Proof.
  intros Hn.
  assert (∀ entries, n ∉ standard_addresses entries) as Hnot.
  { intros entries Hin%standard_addresses_standard. congruence. }
  split; [| intros m; split].
  - rewrite build_graph_nodes. rewrite !decide_False by apply Hnot. done.
  - rewrite build_graph_edges. by rewrite decide_False by apply Hnot.
  - rewrite build_graph_edges.
    destruct (last_value_to n _) as [v|] eqn:Hv; [| by case_decide].
    exfalso. eapply Hnot, last_value_to_standard. by eexists.
Qed.

(** *** The counter of a call *)

(** A call that meets a new address outside the graph first gives it id 0,
    whatever ids the registry already holds. *)
Lemma cluster_addresses_restarts self address :
  address_clusters self !! address = None →
  nx.has_node (transaction_graph self) address = false →
  address_clusters (cluster_addresses [address] self).1 !! address = Some 0.
Proof.
  intros Hfree Hnode. unfold cluster_addresses. cbn [foldl fst address_clusters].
  unfold cluster_step. cbn [registry cluster_id clusters].
  rewrite Hnode. case_decide as Hdec; [rewrite Hfree in Hdec; by destruct Hdec |].
  cbn [registry]. apply lookup_insert_eq.
Qed.

End transactionny_facts.

Import transactionny transactionny_facts.

(** C6.  The id counter is a local of [cluster_addresses] and restarts at 0
    in every call: no chain of edges joins [A] and [C], [A] is clustered by
    one call and [C] by the next, and both end with cluster id 0. *)
Theorem cluster_ids_restart_each_call :
  let s1 := run [ AnalyzeTransaction (Some graph_samples.pay_ab) "h1";
                  ClusterAddresses ["A"] ] init in
  let s2 := run [ AnalyzeTransaction (Some graph_samples.pay_cd) "h2";
                  ClusterAddresses ["C"] ] s1 in
  ¬ rtc (nx.linked (transaction_graph s2)) "A" "C"
  ∧ address_clusters s1 !! "A" = Some 0
  ∧ address_clusters s1 !! "C" = None
  ∧ address_clusters s2 !! "A" = Some 0
  ∧ address_clusters s2 !! "C" = Some 0.
Proof.
  cbv zeta. split; [| repeat split; by vm_compute].
  rewrite <- nx_facts.node_connected_component_spec.
  - apply (bool_decide_unpack _). by vm_compute.
  - do 2 apply run_well_formed. apply nx_facts.well_formed_empty.
  - apply (bool_decide_unpack _). by vm_compute.
Qed.

(** C7.  Whatever calls follow, transactions added to the graph and
    clusterings alike, an address that has a cluster id keeps that id; and
    an iteration of the clustering loop whose component contains an
    already-assigned member changes nothing: no id is allocated and no
    address is assigned. *)
Theorem cluster_ids_are_kept :
  (∀ (calls : list call) (self : Analyzer) (address : string) (id : Z),
     address_clusters self !! address = Some id →
     address_clusters (run calls self) !! address = Some id)
  ∧ (∀ (G : nx.DiGraph) (st : clustering) (address member : string),
       registry st !! address = None →
       nx.has_node G address = true →
       member ∈ nx.node_connected_component G address →
       is_Some (registry st !! member) →
       cluster_step G st address = st).
Proof.
  split; [intros calls self address id; apply run_keeps |].
  intros G st address member Hfree Hnode Hmember Hassigned.
  unfold cluster_step. rewrite Hnode.
  case_decide as Hdec; [rewrite Hfree in Hdec; by destruct Hdec |].
  rewrite (new_cluster_found_assigned _ _ _ member); [done | | done].
  by apply elem_of_elements.
Qed.

Lemma cluster_ids_are_kept_witness :
  address_clusters graph_samples.two_clusters !! "A" = Some 0
  ∧ address_clusters graph_samples.two_clusters !! "C" = Some 1
  ∧ "C" ∈ nx.node_connected_component
            (transaction_graph
               (run graph_samples.bridging graph_samples.two_clusters)) "A"
  ∧ address_clusters
      (run graph_samples.bridging graph_samples.two_clusters) !! "A" = Some 0
  ∧ address_clusters
      (run graph_samples.bridging graph_samples.two_clusters) !! "C" = Some 1.
Proof.
  destruct cluster_ids_are_kept as [Hkept _].
  split; [by vm_compute |]. split; [by vm_compute |].
  split; [apply (bool_decide_unpack _); by vm_compute |].
  split; apply Hkept; by vm_compute.
Defined.


(** The one value the filter knows is kept out of the graph and clustered
    all the same, as a cluster of its own. *)
Example nonstandard_is_clustered :
  let tx := {| hash := Some "h6";
               inputs := Some [graph_samples.entry "A" 9];
               outputs := Some [graph_samples.entry "nonstandard" 9] |} in
  let s1 := (analyze_bitcoin_transaction (Some tx) "h6" init).1 in
  nx.has_node (transaction_graph s1) "nonstandard" = false
  ∧ ∃ s2 score,
      analyze_privacy_score [Some tx] "A" s1 = Ok (s2, score)
      ∧ is_Some (address_clusters s2 !! "nonstandard").
Proof.
  cbv zeta. split; [by vm_compute |].
  eexists _, _. split; [vm_compute; reflexivity |].
  apply (bool_decide_unpack _). by vm_compute.
Qed.

(** C9, as the code has it.  After [build_graph] every pair of an input
    address and an output address that pass the filter is linked by the one
    edge of that pair, carrying the hash of the transaction and the value of
    the last output paying to that address; any other pair keeps what it
    had; and building the same transaction again changes nothing, since a
    [DiGraph] has no parallel edges. *)
Theorem build_graph_one_edge_per_pair (tx_hash : string) (tx_data : TxData)
    (G : nx.DiGraph) :
  let ins := standard_addresses (default [] (inputs tx_data)) in
  let outs := default [] (outputs tx_data) in
  let G' := build_graph tx_hash tx_data G in
  (∀ a b, a ∈ ins → b ∈ standard_addresses outs →
     ∃ v, last_value_to b outs = Some v
          ∧ nx.edges G' !! (a, b)
            = Some {| nx.tx_hash := tx_hash; nx.value := v |})
  ∧ (∀ a b, ¬ (a ∈ ins ∧ b ∈ standard_addresses outs) →
       nx.edges G' !! (a, b) = nx.edges G !! (a, b))
  ∧ build_graph tx_hash tx_data G' = G'.
Proof.
  cbv zeta. split; [| split; [| apply build_graph_twice]].
  - intros a b Ha Hb. apply last_value_to_standard in Hb as [v Hv].
    exists v. split; [done |]. rewrite build_graph_edges, Hv.
    by rewrite decide_True.
  - intros a b Hnot. rewrite build_graph_edges. case_decide as Ha; [| done].
    destruct (last_value_to b _) as [v|] eqn:Hv; [| done].
    exfalso. apply Hnot. split; [done |].
    apply last_value_to_standard. by eexists.
Qed.

Lemma build_graph_one_edge_per_pair_witness :
  ∃ v, last_value_to "B" [graph_samples.entry "B" 7] = Some v
       ∧ nx.edges (build_graph "h9" graph_samples.pay_ab_again
                     (build_graph "h1" graph_samples.pay_ab nx.empty))
           !! ("A", "B")
         = Some {| nx.tx_hash := "h9"; nx.value := v |}.
Proof.
  destruct (build_graph_one_edge_per_pair "h9" graph_samples.pay_ab_again
              (build_graph "h1" graph_samples.pay_ab nx.empty))
    as [Hlinked _].
  apply Hlinked; apply (bool_decide_unpack _); by vm_compute.
Defined.

(** C9 fails as stated: adding the same transaction twice leaves one edge,
    and a second transaction over the same pair of addresses replaces the
    hash and the value of that edge. *)
Lemma build_graph_no_parallel_edges :
  let G1 := build_graph "h1" graph_samples.pay_ab nx.empty in
  let G2 := build_graph "h1" graph_samples.pay_ab G1 in
  let G3 := build_graph "h9" graph_samples.pay_ab_again G1 in
  size (nx.edges G1) = 1%nat
  ∧ size (nx.edges G2) = 1%nat
  ∧ G2 = G1
  ∧ size (nx.edges G3) = 1%nat
  ∧ nx.edges G3 !! ("A", "B") = Some {| nx.tx_hash := "h9"; nx.value := 7 |}.
Proof.
  cbv zeta. split; [by vm_compute |]. split; [by vm_compute |].
  split; [apply build_graph_twice |]. split; by vm_compute.
Qed.

(** C10.  The loop that looks for the size of the cluster compares the keys
    of [address_clusters], which are addresses, with the cluster id, which
    is an integer: no key matches, and the reported size is 0 for every
    address, every graph and every registry, assigned or not. *)
Theorem cluster_size_always_zero (fetched : list (option TxData))
    (address : string) (self : Analyzer) :
  cluster_size_of self address = Ok 0
  ∧ ∃ self' score,
      analyze_privacy_score fetched address self = Ok (self', score)
      ∧ cluster_size score = 0.
Proof.
  assert (∀ items id, cluster_size_loop items id = Ok 0) as Hloop.
  { intros items id. induction items as [|[cid members] items IH]; done. }
  assert (∀ self, cluster_size_of self address = Ok 0) as Hsize.
  { intros self0. unfold cluster_size_of.
    destruct (address_clusters self0 !! address); [apply Hloop | done]. }
  split; [apply Hsize |].
  unfold analyze_privacy_score. cbv zeta. rewrite Hsize.
  eexists _, _. split; [reflexivity | reflexivity].
Qed.

(** The address has an id and its cluster three members; the size is 0. *)
Example cluster_size_of_a_cluster_of_three :
  let tx := {| hash := Some "h5";
               inputs := Some [graph_samples.entry "A" 9];
               outputs := Some [graph_samples.entry "B" 4;
                                graph_samples.entry "C" 5] |} in
  let s1 := (analyze_bitcoin_transaction (Some tx) "h5" init).1 in
  ∃ s2 score,
    analyze_privacy_score [Some tx] "A" s1 = Ok (s2, score)
    ∧ size (nx.node_connected_component (transaction_graph s2) "A") = 3%nat
    ∧ score_cluster_id score = Some 0
    ∧ cluster_size score = 0.
Proof.
  cbv zeta. eexists _, _. split; [vm_compute; reflexivity |].
  split; [by vm_compute |]. split; reflexivity.
Qed.

(** * The clustering loop, step by step *)

Module clustering_facts.
Import transactionny transactionny_facts nx_facts clustering_spec.

(** *** The steps of the clustering loop *)

Lemma new_cluster_found_fresh (reg : gmap string Z) component :
  Forall (λ a, reg !! a = None) component →
  new_cluster_found reg component true = true.
Proof.
  induction 1 as [|a component Ha _ IH]; [done |].
  simpl. rewrite decide_False; [done |]. rewrite Ha. by intros [? ?].
Qed.

Lemma new_cluster_found_all_fresh (reg : gmap string Z) component :
  component ≠ [] → Forall (λ a, reg !! a = None) component →
  new_cluster_found reg component false = true.
Proof.
  intros Hne Hall. destruct Hall as [|a component Ha Hall]; [done |].
  simpl. rewrite decide_False; [by apply new_cluster_found_fresh |].
  rewrite Ha. by intros [? ?].
Qed.

Lemma new_cluster_found_taken (reg : gmap string Z) component found :
  new_cluster_found reg component found = false →
  (component = [] ∧ found = false)
  ∨ ∃ m, m ∈ component ∧ is_Some (reg !! m).
Proof.
  revert found. induction component as [|a component IH]; intros found;
    [by left |].
  simpl. case_decide as Ha.
  - intros _. right. exists a. split; [by left | done].
  - intros [[-> [=]]|(m & Hm & Hreg)]%IH. right. exists m.
    split; [by right | done].
Qed.

Lemma component_self G a : a ∈ elements (nx.node_connected_component G a).
Proof.
  apply elem_of_elements, reach_mono. by apply elem_of_singleton.
Qed.

(** The four ways an iteration can go. *)
Lemma cluster_step_cases G st address :
  (is_Some (registry st !! address) ∧ cluster_step G st address = st)
  ∨ (registry st !! address = None ∧ nx.has_node G address = true
     ∧ Forall (λ a, registry st !! a = None)
              (elements (nx.node_connected_component G address))
     ∧ cluster_step G st address
       = {| clusters :=
              <[cluster_id st :=
                  elements (nx.node_connected_component G address)]>
                (clusters st);
            cluster_id := cluster_id st + 1;
            registry :=
              assign_all (elements (nx.node_connected_component G address))
                         (cluster_id st) (registry st) |})
  ∨ (registry st !! address = None ∧ nx.has_node G address = true
     ∧ (∃ m, m ∈ nx.node_connected_component G address
             ∧ is_Some (registry st !! m))
     ∧ cluster_step G st address = st)
  ∨ (registry st !! address = None ∧ nx.has_node G address = false
     ∧ cluster_step G st address
       = {| clusters := <[cluster_id st := [address]]> (clusters st);
            cluster_id := cluster_id st + 1;
            registry := <[address := cluster_id st]> (registry st) |}).
Proof.
  unfold cluster_step. case_decide as Hreg; [by left |]. right.
  apply eq_None_not_Some in Hreg.
  destruct (nx.has_node G address) eqn:Hnode; [| by right; right].
  destruct (new_cluster_found _ _ _) eqn:Hfound.
  - left. repeat split; try done.
    by eapply new_cluster_found_unassigned.
  - right; left. repeat split; try done.
    apply new_cluster_found_taken in Hfound as [[Hnil _]|(m & Hm & Hreg')].
    + pose proof (component_self G address) as Hself.
      rewrite Hnil in Hself. by apply elem_of_nil in Hself.
    + exists m. split; [by apply elem_of_elements | done].
Qed.

(** *** The clusters a call returns *)

Lemma cluster_step_coherent before G st address :
  coherent before st → coherent before (cluster_step G st address).
Proof.
  intros (Hsize & Hdom & Hkept & Hmembers).
  assert (clusters st !! cluster_id st = None) as Hfresh.
  { apply eq_None_not_Some. rewrite Hdom. lia. }
  assert (∀ component,
            component ≠ [] →
            (∀ m, m ∈ component → registry st !! m = None) →
            ∀ reg',
              (∀ m, m ∈ component → reg' !! m = Some (cluster_id st)) →
              (∀ m, m ∉ component → reg' !! m = registry st !! m) →
              coherent before
                {| clusters := <[cluster_id st := component]> (clusters st);
                   cluster_id := cluster_id st + 1;
                   registry := reg' |}) as Hnew.
  { intros component Hne Hfree reg' Hin Hout.
    assert (∀ a id, registry st !! a = Some id → reg' !! a = Some id) as Hold.
    { intros a id Ha. rewrite Hout; [done |]. intros Hc%Hfree. congruence. }
    split; [| split; [| split]]; cbn [clusters cluster_id registry].
    - rewrite map_size_insert_None by done. lia.
    - intros k. rewrite lookup_insert. case_decide as Hk.
      + subst k. split; [lia | by eexists].
      + rewrite Hdom. lia.
    - intros a id Ha. by apply Hold, Hkept.
    - intros k members. rewrite lookup_insert. case_decide as Hk.
      + subst k. intros [= <-]. split; [done |]. intros m Hm.
        split; [| by apply Hin].
        destruct (before !! m) as [id|] eqn:Hb; [| done].
        apply Hkept in Hb. rewrite Hfree in Hb; done.
      + intros Hmem. destruct (Hmembers k members Hmem) as [Hne' Hall].
        split; [done |]. intros m Hm. destruct (Hall m Hm) as [? ?].
        split; [done | by apply Hold]. }
  destruct (cluster_step_cases G st address)
    as [[_ ->]|[(Hfree & _ & Hall & ->)|[(_ & _ & _ & ->)|(Hfree & _ & ->)]]];
    [done | | done |].
  - apply Hnew.
    + intros Hnil. pose proof (component_self G address) as Hself.
      rewrite Hnil in Hself. by apply elem_of_nil in Hself.
    + intros m Hm. rewrite Forall_forall in Hall. by apply Hall.
    + intros m Hm. by apply assign_all_member.
    + intros m Hm. by apply assign_all_other.
  - apply Hnew.
    + done.
    + by intros m ->%list_elem_of_singleton.
    + intros m ->%list_elem_of_singleton. apply lookup_insert_eq.
    + intros m Hm. rewrite lookup_insert_ne; [done |].
      intros ->. apply Hm. by apply list_elem_of_singleton.
Qed.

Lemma cluster_loop_coherent before G addresses st :
  coherent before st → coherent before (foldl (cluster_step G) st addresses).
Proof.
  revert st. induction addresses as [|a addresses IH]; intros st Hst; [done |].
  simpl. by apply IH, cluster_step_coherent.
Qed.

(** *** A second pass changes nothing *)

Lemma settled_mono G (reg reg' : gmap string Z) a :
  (∀ m id, reg !! m = Some id → reg' !! m = Some id) →
  settled G reg a → settled G reg' a.
Proof.
  intros Hgrow [[id Ha]|(Hnode & m & Hm & [id Hid])].
  - left. exists id. by apply Hgrow.
  - right. split; [done |]. exists m. split; [done |]. exists id.
    by apply Hgrow.
Qed.

Lemma cluster_step_settles G st a :
  settled G (registry (cluster_step G st a)) a.
Proof.
  destruct (cluster_step_cases G st a)
    as [[? ->]|[(_ & _ & _ & ->)|[(_ & ? & ? & ->)|(_ & _ & ->)]]].
  - by left.
  - left. cbn [registry]. exists (cluster_id st).
    apply assign_all_member, component_self.
  - by right.
  - left. cbn [registry]. exists (cluster_id st). apply lookup_insert_eq.
Qed.

Lemma cluster_loop_settles G addresses st a :
  a ∈ addresses → settled G (registry (foldl (cluster_step G) st addresses)) a.
Proof.
  revert st. induction addresses as [|b addresses IH]; intros st Ha;
    [by apply elem_of_nil in Ha |].
  simpl. apply elem_of_cons in Ha as [->|Ha]; [| by apply IH].
  eapply settled_mono; [| apply cluster_step_settles].
  intros m id. apply cluster_loop_keeps.
Qed.

Lemma cluster_step_settled G st a :
  settled G (registry st) a → cluster_step G st a = st.
Proof.
  intros Hsettled.
  destruct (cluster_step_cases G st a)
    as [[_ ->]|[(Hfree & _ & Hall & _)|[(_ & _ & _ & ->)|(Hfree & Hnode & _)]]];
    [done | | done |];
    destruct Hsettled as [[id Ha]|(Hnode' & m & Hm & [id Hid])];
    try congruence.
  rewrite Forall_forall in Hall.
  rewrite (Hall m) in Hid; [done | by apply elem_of_elements].
Qed.

Lemma cluster_loop_settled G addresses st :
  Forall (settled G (registry st)) addresses →
  foldl (cluster_step G) st addresses = st.
Proof.
  induction 1 as [|a addresses Ha _ IH]; [done |].
  simpl. by rewrite cluster_step_settled.
Qed.

(** *** A call on a fresh registry finds the components *)

Lemma linked_sym G a b : nx.linked G a b → nx.linked G b a.
Proof. unfold nx.linked. tauto. Qed.

Lemma rtc_linked_sym G a b :
  rtc (nx.linked G) a b → rtc (nx.linked G) b a.
Proof.
  induction 1 as [|a c b Hac _ IH]; [done |].
  eapply rtc_r; [done |]. by apply linked_sym.
Qed.

Lemma linked_nodes G a b :
  nx.well_formed G → nx.linked G a b →
  is_Some (nx.nodes G !! a) ∧ is_Some (nx.nodes G !! b).
Proof.
  intros Hwf [Hab|Hba]; [by apply Hwf | by apply and_comm, Hwf].
Qed.

Lemma has_node_spec G a :
  nx.has_node G a = true ↔ is_Some (nx.nodes G !! a).
Proof. unfold nx.has_node. apply bool_decide_eq_true. Qed.

(** Off the graph an address is joined to nothing but itself. *)
Lemma rtc_linked_off_graph G a b :
  nx.well_formed G → nx.has_node G a = false →
  rtc (nx.linked G) a b → b = a.
Proof.
  intros Hwf Hnode Hab. destruct Hab as [|a c b Hac _]; [done |].
  apply (linked_nodes G a c Hwf) in Hac as [Ha%has_node_spec _]. congruence.
Qed.

Lemma partitioned_assign G st (component : list string) cl reg' address :
  partitioned G st →
  (∀ m, m ∈ component ↔ rtc (nx.linked G) address m) →
  (∀ m, m ∈ component → registry st !! m = None) →
  (∀ m, m ∈ component → reg' !! m = Some (cluster_id st)) →
  (∀ m, m ∉ component → reg' !! m = registry st !! m) →
  partitioned G {| clusters := cl;
                   cluster_id := cluster_id st + 1;
                   registry := reg' |}.
Proof.
  intros (Hids & Hsame & Hclosed) Hcomp Hfree Hin Hout.
  split; [| split]; cbn [cluster_id registry].
  - intros a id Ha. destruct (decide (a ∈ component)) as [Hc|Hc].
    + rewrite Hin in Ha by done. injection Ha as <-. lia.
    + rewrite Hout in Ha by done. apply Hids in Ha. lia.
  - intros a b ida idb Ha Hb.
    destruct (decide (a ∈ component)) as [Hca|Hca];
      destruct (decide (b ∈ component)) as [Hcb|Hcb].
    + rewrite Hin in Ha, Hb by done. injection Ha as <-. injection Hb as <-.
      split; [intros _ | done].
      etrans; [apply rtc_linked_sym; by apply Hcomp | by apply Hcomp].
    + rewrite Hin in Ha by done. rewrite Hout in Hb by done.
      injection Ha as <-. pose proof (Hids _ _ Hb). split; [lia |].
      intros Hab. exfalso. apply Hcb, Hcomp.
      etrans; [by apply Hcomp | done].
    + rewrite Hout in Ha by done. rewrite Hin in Hb by done.
      injection Hb as <-. pose proof (Hids _ _ Ha). split; [lia |].
      intros Hab. exfalso. apply Hca, Hcomp.
      etrans; [by apply Hcomp | by apply rtc_linked_sym].
    + rewrite Hout in Ha, Hb by done. by apply Hsame.
  - intros a b Ha Hab. destruct (decide (a ∈ component)) as [Hca|Hca].
    + assert (b ∈ component) as Hcb.
      { apply Hcomp. eapply rtc_r; [by apply Hcomp | done]. }
      rewrite Hin by done. by eexists.
    + rewrite Hout in Ha by done.
      destruct (decide (b ∈ component)) as [Hcb|Hcb].
      * rewrite Hin by done. by eexists.
      * rewrite Hout by done. by eapply Hclosed.
Qed.

Lemma cluster_step_partitioned G st address :
  nx.well_formed G → partitioned G st →
  partitioned G (cluster_step G st address).
Proof.
  intros Hwf Hpart.
  destruct (cluster_step_cases G st address)
    as [[_ ->]|[(_ & Hnode & Hall & ->)|[(_ & _ & _ & ->)|(Hfree & Hnode & ->)]]];
    [done | | done |].
  - apply (partitioned_assign G st
             (elements (nx.node_connected_component G address)) _ _ address);
      [done | | | |].
    + intros m. rewrite elem_of_elements.
      apply node_connected_component_spec; [done | by apply has_node_spec].
    + intros m Hm. rewrite Forall_forall in Hall. by apply Hall.
    + intros m Hm. by apply assign_all_member.
    + intros m Hm. by apply assign_all_other.
  - apply (partitioned_assign G st [address] _ _ address); [done | | | |].
    + intros m. rewrite list_elem_of_singleton. split; [by intros -> |].
      by apply rtc_linked_off_graph.
    + by intros m ->%list_elem_of_singleton.
    + intros m ->%list_elem_of_singleton. apply lookup_insert_eq.
    + intros m Hm. rewrite lookup_insert_ne; [done |].
      intros ->. apply Hm. by apply list_elem_of_singleton.
Qed.

Lemma cluster_loop_partitioned G addresses st :
  nx.well_formed G → partitioned G st →
  partitioned G (foldl (cluster_step G) st addresses).
Proof.
  intros Hwf. revert st.
  induction addresses as [|a addresses IH]; intros st Hst; [done |].
  simpl. by apply IH, cluster_step_partitioned.
Qed.

Lemma partitioned_closed G st a b :
  partitioned G st → is_Some (registry st !! a) →
  rtc (nx.linked G) a b → is_Some (registry st !! b).
Proof.
  intros (_ & _ & Hclosed) Ha Hab.
  induction Hab as [|a c b Hac _ IH]; [done |].
  apply IH. by eapply Hclosed.
Qed.

(** *** The clusters of one call are whole components *)

Lemma whole_components_assign G before st (component : list string) reg'
    address :
  coherent before st → whole_components G before st →
  (∀ m, m ∈ component ↔ rtc (nx.linked G) address m) →
  (∀ m, m ∈ component → reg' !! m = Some (cluster_id st)) →
  (∀ m, m ∉ component → reg' !! m = registry st !! m) →
  whole_components G before
    {| clusters := <[cluster_id st := component]> (clusters st);
       cluster_id := cluster_id st + 1;
       registry := reg' |}.
Proof.
  intros (_ & Hdom & _ & _) [Hwhole Hnew] Hcomp Hin Hout.
  assert (clusters st !! cluster_id st = None) as Hfresh.
  { apply eq_None_not_Some. rewrite Hdom. lia. }
  split; cbn [clusters registry].
  - intros k members m. rewrite lookup_insert. case_decide as Hk.
    + intros [= <-] Hm x. rewrite !Hcomp. apply Hcomp in Hm. split.
      * intros Hx. etrans; [by apply rtc_linked_sym | done].
      * intros Hx. by etrans.
    + apply Hwhole.
  - intros a id Hbefore Ha. destruct (decide (a ∈ component)) as [Hc|Hc].
    + rewrite Hin in Ha by done. injection Ha as <-.
      exists component. by rewrite lookup_insert_eq.
    + rewrite Hout in Ha by done.
      destruct (Hnew a id Hbefore Ha) as (members & Hmembers & Hmem).
      exists members. split; [| done].
      rewrite lookup_insert_ne; [done |]. intros <-. congruence.
Qed.

Lemma cluster_step_whole_components G before st address :
  nx.well_formed G → coherent before st → whole_components G before st →
  whole_components G before (cluster_step G st address).
Proof.
  intros Hwf Hcoh Hwhole.
  destruct (cluster_step_cases G st address)
    as [[_ ->]|[(_ & Hnode & Hall & ->)|[(_ & _ & _ & ->)|(Hfree & Hnode & ->)]]];
    [done | | done |].
  - apply (whole_components_assign G before st
             (elements (nx.node_connected_component G address)) _ address);
      [done | done | | |].
    + intros m. rewrite elem_of_elements.
      apply node_connected_component_spec; [done | by apply has_node_spec].
    + intros m Hm. by apply assign_all_member.
    + intros m Hm. by apply assign_all_other.
  - apply (whole_components_assign G before st [address] _ address);
      [done | done | | |].
    + intros m. rewrite list_elem_of_singleton. split; [by intros -> |].
      by apply rtc_linked_off_graph.
    + intros m ->%list_elem_of_singleton. apply lookup_insert_eq.
    + intros m Hm. rewrite lookup_insert_ne; [done |].
      intros ->. apply Hm. by apply list_elem_of_singleton.
Qed.

Lemma cluster_loop_whole_components G before addresses st :
  nx.well_formed G → coherent before st → whole_components G before st →
  whole_components G before (foldl (cluster_step G) st addresses).
Proof.
  intros Hwf. revert st.
  induction addresses as [|a addresses IH]; intros st Hcoh Hwhole; [done |].
  simpl. apply IH; [by apply cluster_step_coherent |].
  by apply cluster_step_whole_components.
Qed.

End clustering_facts.

(** * The graph over a session *)

Module graph_facts.
Import transactionny transactionny_facts nx_facts visualize.

(** *** The graph only grows *)

Lemma build_graph_grows h tx G :
  dom (nx.nodes G) ⊆ dom (nx.nodes (build_graph h tx G))
  ∧ dom (nx.edges G) ⊆ dom (nx.edges (build_graph h tx G)).
Proof.
  split.
  - intros n Hn%elem_of_dom. apply elem_of_dom.
    rewrite build_graph_nodes. repeat case_decide; by eauto.
  - intros [a b] He%elem_of_dom. apply elem_of_dom.
    rewrite build_graph_edges. case_decide; [| done].
    by destruct (last_value_to _ _).
Qed.

Lemma run_call_grows self c :
  dom (nx.nodes (transaction_graph self))
    ⊆ dom (nx.nodes (transaction_graph (run_call self c)))
  ∧ dom (nx.edges (transaction_graph self))
      ⊆ dom (nx.edges (transaction_graph (run_call self c))).
Proof.
  destruct c as [[tx_data|] tx_hash|addresses]; simpl; [| done | done].
  apply build_graph_grows.
Qed.

Lemma run_grows calls self :
  dom (nx.nodes (transaction_graph self))
    ⊆ dom (nx.nodes (transaction_graph (run calls self)))
  ∧ dom (nx.edges (transaction_graph self))
      ⊆ dom (nx.edges (transaction_graph (run calls self))).
Proof.
  unfold run. revert self.
  induction calls as [|c calls IH]; intros self; [done |].
  simpl. destruct (run_call_grows self c) as [Hn He].
  destruct (IH (run_call self c)) as [Hn' He']. split; by etrans.
Qed.

(** *** What a session never puts in the graph *)

Lemma run_filters calls self n :
  standard (Some n) = None →
  nx.nodes (transaction_graph (run calls self)) !! n
  = nx.nodes (transaction_graph self) !! n
  ∧ ∀ m, nx.edges (transaction_graph (run calls self)) !! (n, m)
         = nx.edges (transaction_graph self) !! (n, m)
         ∧ nx.edges (transaction_graph (run calls self)) !! (m, n)
           = nx.edges (transaction_graph self) !! (m, n).
Proof.
  intros Hn. unfold run. revert self.
  induction calls as [|c calls IH]; intros self; [done |].
  simpl. destruct (IH (run_call self c)) as [-> Hedges].
  assert (nx.nodes (transaction_graph (run_call self c)) !! n
          = nx.nodes (transaction_graph self) !! n
          ∧ ∀ m, nx.edges (transaction_graph (run_call self c)) !! (n, m)
                 = nx.edges (transaction_graph self) !! (n, m)
                 ∧ nx.edges (transaction_graph (run_call self c)) !! (m, n)
                   = nx.edges (transaction_graph self) !! (m, n))
    as [-> Hstep].
  { destruct c as [[tx_data|] tx_hash|addresses]; simpl; [| done | done].
    by apply build_graph_filters. }
  split; [done |]. intros m.
  destruct (Hedges m) as [-> ->]. apply Hstep.
Qed.

(** *** Node types *)

Lemma build_graph_all_typed h tx G :
  all_typed G → all_typed (build_graph h tx G).
Proof.
  intros Htyped n t. rewrite build_graph_nodes.
  repeat case_decide; [intros [= <-]; by right | intros [= <-]; by left |].
  apply Htyped.
Qed.

Lemma run_all_typed calls self :
  all_typed (transaction_graph self) →
  all_typed (transaction_graph (run calls self)).
Proof.
  unfold run. revert self.
  induction calls as [|c calls IH]; intros self Htyped; [done |].
  simpl. apply IH.
  destruct c as [[tx_data|] tx_hash|addresses]; simpl; [| done | done].
  by apply build_graph_all_typed.
Qed.

Lemma elem_of_nodes_of_type t G n :
  n ∈ nodes_of_type t G ↔ nx.nodes G !! n = Some (Some t).
Proof.
  unfold nodes_of_type. rewrite list_elem_of_fmap. split.
  - intros ([n' t'] & -> & [Ht Hin]%list_elem_of_filter).
    simpl in *. subst t'. by apply elem_of_map_to_list in Hin.
  - intros Hn. exists (n, Some t). split; [done |].
    apply list_elem_of_filter. split; [done |].
    by apply elem_of_map_to_list.
Qed.

Lemma common_nodes_empty G : common_nodes G = [].
Proof.
  unfold common_nodes. apply elements_empty_iff.
  intros n. split; [| by intros ?%elem_of_empty].
  intros [Hi Ho]%elem_of_intersection.
  apply elem_of_list_to_set, elem_of_nodes_of_type in Hi.
  apply elem_of_list_to_set, elem_of_nodes_of_type in Ho.
  rewrite Hi in Ho. discriminate.
Qed.

(** *** Related addresses *)

Lemma elem_of_find_related_addresses self a b :
  b ∈ find_related_addresses self a
  ↔ nx.has_node (transaction_graph self) a = true
    ∧ nx.linked (transaction_graph self) a b.
Proof.
  unfold find_related_addresses. rewrite elem_of_elements.
  destruct (nx.has_node _ a).
  - rewrite elem_of_list_to_set, elem_of_app, elem_of_neighbors,
      elem_of_predecessors. unfold nx.linked. tauto.
  - rewrite elem_of_list_to_set. split; [by intros ?%elem_of_nil | by intros []].
Qed.

End graph_facts.

(** * More properties of the graph and of the clustering *)

Module graph_properties.
Import transactionny transactionny_facts nx_facts.
Import clustering_spec clustering_facts visualize graph_facts.

(** X1.  No call of a session removes a node or an edge: the nodes and the
    linked pairs of the graph before a sequence of calls are still there
    after it. *)
Theorem session_graph_only_grows (calls : list call) (self : Analyzer) :
  dom (nx.nodes (transaction_graph self))
    ⊆ dom (nx.nodes (transaction_graph (run calls self)))
  ∧ dom (nx.edges (transaction_graph self))
      ⊆ dom (nx.edges (transaction_graph (run calls self))).
Proof. apply run_grows. Qed.

(** X2.  In the graph of every session of a fresh analyser each edge joins
    two nodes, and each node carries the tag input or output: no node is
    created by an edge alone. *)
Theorem session_graph_is_well_formed (calls : list call) :
  nx.well_formed (transaction_graph (run calls init))
  ∧ all_typed (transaction_graph (run calls init)).
Proof.
  split.
  - apply run_well_formed, well_formed_empty.
  - apply run_all_typed. intros n t Hn.
    cbn [init transaction_graph nx.empty nx.nodes] in Hn.
    by rewrite lookup_empty in Hn.
Qed.

(** X3.  Whatever transactions a session of a fresh analyser adds, the empty
    address and ["nonstandard"] are no nodes of the graph, and no edge
    leaves or reaches them. *)
Theorem session_graph_excludes_nonstandard (calls : list call) :
  let G := transaction_graph (run calls init) in
  (nx.nodes G !! "" = None ∧ nx.nodes G !! "nonstandard" = None)
  ∧ ∀ m, nx.edges G !! ("", m) = None ∧ nx.edges G !! (m, "") = None
         ∧ nx.edges G !! ("nonstandard", m) = None
         ∧ nx.edges G !! (m, "nonstandard") = None.
Proof.
  cbv zeta.
  destruct (run_filters calls init "" eq_refl) as [He Hem].
  destruct (run_filters calls init "nonstandard" eq_refl) as [Hn Hnm].
  split; [split; [by rewrite He | by rewrite Hn] |].
  intros m. destruct (Hem m) as [-> ->]. destruct (Hnm m) as [-> ->]. done.
Qed.

(** X4.  A node has one tag, and the loop over the outputs writes it last:
    an address that is both an input and an output of a transaction ends
    tagged output, so the list of common nodes the drawing computes is empty
    for every graph and the input-only nodes are all the input nodes. *)
Theorem change_address_is_tagged_output :
  (∀ G, common_nodes G = [] ∧ ∀ n, n ∈ input_only G ↔ n ∈ input_nodes G)
  ∧ (∀ tx_hash tx_data G a,
       a ∈ standard_addresses (default [] (inputs tx_data)) →
       a ∈ standard_addresses (default [] (outputs tx_data)) →
       a ∈ output_nodes (build_graph tx_hash tx_data G)
       ∧ a ∉ input_nodes (build_graph tx_hash tx_data G)).
Proof.
  split.
  - intros G. split; [apply common_nodes_empty |]. intros n.
    unfold input_only. rewrite common_nodes_empty, elem_of_elements.
    rewrite elem_of_difference, elem_of_list_to_set, elem_of_list_to_set.
    split; [tauto |]. intros Hn. split; [done |]. by intros ?%elem_of_nil.
  - intros h tx G a Hin Hout. unfold output_nodes, input_nodes.
    rewrite !elem_of_nodes_of_type.
    rewrite build_graph_nodes, decide_True by done. done.
Qed.

(** X5.  The clusters a call returns are numbered 0, 1, ... without gaps;
    none is empty; their members had no id before the call and have the
    number of their cluster as id after it. *)
Theorem cluster_addresses_returns_new_clusters (addresses : list string)
    (self : Analyzer) :
  let found := (cluster_addresses addresses self).2 in
  let after := address_clusters (cluster_addresses addresses self).1 in
  (∀ k, is_Some (found !! k) ↔ (0 ≤ k < Z.of_nat (size found))%Z)
  ∧ ∀ k members,
      found !! k = Some members →
      members ≠ []
      ∧ ∀ m, m ∈ members →
             address_clusters self !! m = None ∧ after !! m = Some k.
Proof.
  cbv zeta. unfold cluster_addresses. cbn [fst snd address_clusters].
  destruct (cluster_loop_coherent (address_clusters self)
              (transaction_graph self) addresses
              {| clusters := ∅; cluster_id := 0;
                 registry := address_clusters self |})
    as (Hsize & Hdom & _ & Hmembers).
  { split; [done |]. split; [| split; [done |]].
    - intros k. cbn [clusters cluster_id]. rewrite lookup_empty.
      split; [by intros [? ?] | lia].
    - intros k members. cbn [clusters]. by rewrite lookup_empty. }
  split; [| done]. intros k. rewrite Hdom, Hsize. done.
Qed.

(** X6.  Clustering the same addresses again, with the graph unchanged,
    changes no id and returns no cluster. *)
Theorem cluster_addresses_twice (addresses : list string) (self : Analyzer) :
  cluster_addresses addresses (cluster_addresses addresses self).1
  = ((cluster_addresses addresses self).1, ∅).
Proof.
  unfold cluster_addresses at 1. cbn [fst transaction_graph address_clusters].
  rewrite cluster_loop_settled; [done |].
  apply Forall_forall. intros a Ha. cbn [registry].
  by apply cluster_loop_settles.
Qed.

(** X7.  On a registry without ids one call tells the components of the
    graph apart: every address of the list gets an id, and two addresses
    with an id have the same id exactly when a chain of edges joins them. *)
Theorem fresh_clustering_finds_components (addresses : list string)
    (self : Analyzer) :
  nx.well_formed (transaction_graph self) →
  address_clusters self = ∅ →
  let after := address_clusters (cluster_addresses addresses self).1 in
  (∀ a, a ∈ addresses → is_Some (after !! a))
  ∧ ∀ a b ida idb,
      after !! a = Some ida → after !! b = Some idb →
      (ida = idb ↔ rtc (nx.linked (transaction_graph self)) a b).
Proof.
  intros Hwf Hempty. cbv zeta.
  unfold cluster_addresses. cbn [fst address_clusters].
  set (st0 := {| clusters := ∅; cluster_id := 0;
                 registry := address_clusters self |}).
  assert (partitioned (transaction_graph self)
            (foldl (cluster_step (transaction_graph self)) st0 addresses))
    as Hpart.
  { apply cluster_loop_partitioned; [done |]. unfold st0.
    split; [| split]; cbn [registry]; rewrite Hempty.
    - intros a id Ha. by rewrite lookup_empty in Ha.
    - intros a b ida idb Ha. by rewrite lookup_empty in Ha.
    - intros a b [id Ha]. by rewrite lookup_empty in Ha. }
  split; [| apply Hpart].
  intros a Ha.
  destruct (cluster_loop_settles (transaction_graph self) addresses st0 a Ha)
    as [Hdone|(Hnode & m & Hm & Hassigned)]; [done |].
  eapply partitioned_closed; [done | done |].
  apply rtc_linked_sym.
  apply node_connected_component_spec in Hm; [done | done |].
  by apply has_node_spec.
Qed.

Lemma fresh_clustering_finds_components_witness :
  is_Some (address_clusters
             (cluster_addresses ["B"; "Z"]
                (run [AnalyzeTransaction (Some graph_samples.pay_ab) "h1"]
                     init)).1 !! "Z").
Proof.
  apply (fresh_clustering_finds_components ["B"; "Z"]
           (run [AnalyzeTransaction (Some graph_samples.pay_ab) "h1"] init)).
  - apply run_well_formed, well_formed_empty.
  - reflexivity.
  - apply (bool_decide_unpack _). by vm_compute.
Defined.

(** X8.  In every session of a fresh analyser the related addresses of an
    address are the addresses an edge joins it to, each listed once, and
    being related is symmetric. *)
Theorem related_addresses_are_symmetric (calls : list call) (a b : string) :
  let self := run calls init in
  (b ∈ find_related_addresses self a
   ↔ nx.linked (transaction_graph self) a b)
  ∧ (b ∈ find_related_addresses self a ↔ a ∈ find_related_addresses self b)
  ∧ NoDup (find_related_addresses self a).
Proof.
  cbv zeta. set (self := run calls init).
  assert (nx.well_formed (transaction_graph self)) as Hwf
    by apply run_well_formed, well_formed_empty.
  assert (∀ x y, y ∈ find_related_addresses self x
                 ↔ nx.linked (transaction_graph self) x y) as Hrel.
  { intros x y. rewrite elem_of_find_related_addresses.
    split; [by intros [_ ?] |]. intros Hxy. split; [| done].
    apply has_node_spec. by apply (linked_nodes _ x y Hwf). }
  split; [apply Hrel |]. split; [| apply NoDup_elements].
  rewrite !Hrel. split; apply linked_sym.
Qed.

(** X9.  The privacy analysis of an address raises exactly what its
    fetches raise (a subscript on a key the explorer left out) and nothing
    else.  When they return it returns: the graph is left as it was and,
    since the cluster size it finds is 0, the rating is 100 minus 3 per
    related address, cut at 0; the risk is high from six related addresses
    on, and the transaction count is the number of transactions fetched. *)
Theorem privacy_rating_counts_related_only (response : option (list RawTx))
    (fetch : string → option RawTx) (address : string) (self : Analyzer) :
  match transactionny_client.analyze_privacy_score response fetch address self
  with
  | Ok (self', score) =>
      ∃ transactions fetched,
        transactionny_client.get_address_transactions_info response
        = Ok transactions
        ∧ for_each (transactionny_client.get_transaction_data fetch)
            transactions = Ok fetched
        ∧ transaction_count score = Z.of_nat (length transactions)
        ∧ transaction_graph self' = transaction_graph self
        ∧ cluster_size score = 0
        ∧ related_addresses_in_graph score
          = Z.of_nat (length (find_related_addresses self address))
        ∧ privacy_rating score
          = Z.max 0 (100 - 3 * related_addresses_in_graph score)
        ∧ (0 ≤ privacy_rating score ≤ 100)%Z
        ∧ (reused_addresses_risk score = "High"
           ↔ (5 < related_addresses_in_graph score)%Z)
  | KeyError key =>
      transactionny_client.fetch_all response fetch = KeyError key
  | TypeError what =>
      transactionny_client.fetch_all response fetch = TypeError what
  end.
Proof.
  assert (∀ items id, cluster_size_loop items id = Ok 0) as Hloop.
  { intros items id. induction items as [|[cid members] items IH]; done. }
  assert (∀ s, cluster_size_of s address = Ok 0) as Hsize.
  { intros s. unfold cluster_size_of.
    destruct (address_clusters s !! address); [apply Hloop | done]. }
  assert (∀ (l : list string) fetched,
            for_each (transactionny_client.get_transaction_data fetch) l
            = Ok fetched → length fetched = length l) as Hlen.
  { induction l as [|h l IH]; intros fetched; cbn [for_each].
    - by intros [= <-].
    - destruct (transactionny_client.get_transaction_data fetch h);
        cbn [mbind result_bind]; [| done | done].
      destruct (for_each _ l) eqn:Hl; cbn [mbind result_bind];
        [| done | done].
      intros [= <-]. cbn [length]. f_equal. by apply IH. }
  unfold transactionny_client.analyze_privacy_score,
    transactionny_client.fetch_all.
  destruct (transactionny_client.get_address_transactions_info response)
    as [transactions| |] eqn:Htxs; cbn [mbind result_bind]; [| done | done].
  destruct (for_each _ transactions) as [fetched| |] eqn:Hfetched;
    cbn [mbind result_bind]; [| done | done].
  unfold analyze_privacy_score. cbv zeta. rewrite Hsize.
  cbn [mbind result_bind].
  exists transactions, fetched. split; [done |]. split; [done |].
  cbn [transaction_graph related_addresses_in_graph privacy_rating
       reused_addresses_risk transaction_count cluster_size fst
       cluster_addresses].
  split; [by rewrite (Hlen _ _ Hfetched) |].
  split; [done |]. split; [done |]. split; [done |].
  set (related := Z.of_nat (length _)).
  split; [f_equal; lia |]. split; [lia |].
  case_bool_decide; split; intros; done || lia.
Qed.

(** X19.  Whatever ids the registry already holds, the ids one call hands
    out tell the components apart: two addresses that had no id before the
    call and have one after it have the same id exactly when a chain of
    edges joins them. *)
Theorem new_ids_tell_components_apart (addresses : list string)
    (self : Analyzer) :
  nx.well_formed (transaction_graph self) →
  let after := address_clusters (cluster_addresses addresses self).1 in
  ∀ a b ida idb,
    address_clusters self !! a = None → address_clusters self !! b = None →
    after !! a = Some ida → after !! b = Some idb →
    (ida = idb ↔ rtc (nx.linked (transaction_graph self)) a b).
Proof.
  intros Hwf. cbv zeta. unfold cluster_addresses. cbn [fst address_clusters].
  set (st0 := {| clusters := ∅; cluster_id := 0;
                 registry := address_clusters self |}).
  assert (coherent (address_clusters self) st0) as Hcoh0.
  { split; [done |]. split; [| split; [done |]].
    - intros k. cbn [clusters cluster_id st0]. rewrite lookup_empty.
      split; [by intros [? ?] | lia].
    - intros k members. cbn [clusters st0]. by rewrite lookup_empty. }
  assert (whole_components (transaction_graph self) (address_clusters self) st0)
    as Hwhole0.
  { split.
    - intros k members m. cbn [clusters st0]. by rewrite lookup_empty.
    - intros a id Hbefore. cbn [registry st0]. congruence. }
  destruct (cluster_loop_coherent (address_clusters self)
              (transaction_graph self) addresses st0 Hcoh0)
    as (_ & _ & _ & Hmembers).
  destruct (cluster_loop_whole_components (transaction_graph self)
              (address_clusters self) addresses st0 Hwf Hcoh0 Hwhole0)
    as [Hwhole Hnew].
  intros a b ida idb Ha0 Hb0 Ha Hb.
  destruct (Hnew a ida Ha0 Ha) as (ma & Hma & Hina).
  destruct (Hnew b idb Hb0 Hb) as (mb & Hmb & Hinb).
  split.
  - intros <-. rewrite Hma in Hmb. injection Hmb as <-.
    by apply (Hwhole ida ma a Hma Hina).
  - intros Hab. apply (Hwhole ida ma a Hma Hina) in Hab.
    destruct (Hmembers ida ma Hma) as [_ Hall].
    destruct (Hall b Hab) as [_ Hb']. congruence.
Qed.

Lemma new_ids_tell_components_apart_witness :
  (0 = 1)%Z
  ↔ rtc (nx.linked (transaction_graph graph_samples.two_clusters)) "E" "F".
Proof.
  apply (new_ids_tell_components_apart ["E"; "F"] graph_samples.two_clusters).
  - apply run_well_formed, well_formed_empty.
  - by vm_compute.
  - by vm_compute.
  - by vm_compute.
  - by vm_compute.
Defined.

End graph_properties.

(** * The API client, the driver and the loops of the score *)

Module client_facts.
Import addressny addressny_facts addressny_client.

(** *** [make_request] *)

Lemma attempts_requests {J : Type} (net : nat → reply J) remaining attempt :
  (attempt ≤ (attempts net remaining attempt).2 ≤ attempt + remaining)%nat.
Proof.
  revert attempt. induction remaining as [|remaining IH]; intros attempt;
    simpl; [lia |].
  destruct (net attempt) as [status_code json|].
  - repeat case_decide; simpl; try lia. specialize (IH (S attempt)). lia.
  - specialize (IH (S attempt)). lia.
Qed.

Lemma attempts_success {J : Type} (net : nat → reply J) remaining attempt json :
  (attempts net remaining attempt).1 = Some json
  ↔ ∃ k, (attempt ≤ k < attempt + remaining)%nat
         ∧ net k = Response 200 json
         ∧ (∀ i, (attempt ≤ i < k)%nat → retried (net i))
         ∧ (attempts net remaining attempt).2 = S k.
Proof.
  revert attempt. induction remaining as [|remaining IH]; intros attempt.
  { simpl. split; [done | intros (k & ? & _); lia]. }
  simpl. destruct (net attempt) as [status_code body|] eqn:Hnet.
  - case_decide as H200; [| case_decide as H429].
    + subst status_code. simpl. split.
      * intros [= ->]. exists attempt. split; [lia |]. split; [done |]. split; [| done].
        intros i ?. lia.
      * intros (k & Hk & Hok & Hretried & _).
        destruct (decide (k = attempt)) as [->|Hne]; [congruence |].
        specialize (Hretried attempt). rewrite Hnet in Hretried.
        simpl in Hretried. lia.
    + rewrite IH. split.
      * intros (k & Hk & Hok & Hretried & Hcount). exists k.
        split; [lia |]. split; [done |]. split; [| done].
        intros i Hi. destruct (decide (i = attempt)) as [->|Hne].
        -- by rewrite Hnet.
        -- apply Hretried. lia.
      * intros (k & Hk & Hok & Hretried & Hcount).
        assert (k ≠ attempt) by (intros ->; congruence).
        exists k. split; [lia |]. split; [done |]. split; [| done].
        intros i Hi. apply Hretried. lia.
    + simpl. split; [done |].
      intros (k & Hk & Hok & Hretried & _).
      destruct (decide (k = attempt)) as [->|Hne]; [congruence |].
      specialize (Hretried attempt). rewrite Hnet in Hretried.
      simpl in Hretried. lia.
  - rewrite IH. split.
    + intros (k & Hk & Hok & Hretried & Hcount). exists k.
      split; [lia |]. split; [done |]. split; [| done].
      intros i Hi. destruct (decide (i = attempt)) as [->|Hne].
      * by rewrite Hnet.
      * apply Hretried. lia.
    + intros (k & Hk & Hok & Hretried & Hcount).
      assert (k ≠ attempt) by (intros ->; congruence).
      exists k. split; [lia |]. split; [done |]. split; [| done].
      intros i Hi. apply Hretried. lia.
Qed.

(** *** Rounding keeps a score between two hundredths *)

Lemma round_half_even_between (x : Q) (a b : Z) :
  (inject_Z a <= x <= inject_Z b)%Q → (a ≤ round_half_even x ≤ b)%Z.
Proof.
  intros [Ha Hb].
  assert (a ≤ Qfloor x)%Z as Hfa.
  { rewrite <- (Qfloor_Z a). by apply Qfloor_resp_le. }
  assert (Qfloor x ≤ b)%Z as Hfb.
  { rewrite <- (Qfloor_Z b). by apply Qfloor_resp_le. }
  pose proof (Qfloor_le x) as Hfx.
  unfold round_half_even.
  destruct (Qltb (x - inject_Z (Qfloor x)) (1 # 2)) eqn:Hlow; [lia |].
  apply Qltb_ge in Hlow.
  assert (Qfloor x < b)%Z.
  { rewrite Zlt_Qlt. lra. }
  destruct (Qltb _ _); [lia |]. destruct (Z.even _); lia.
Qed.

Lemma hundredths_le_l (a x : Q) : (a / 100 <= x → a <= x * 100)%Q.
Proof.
  intros H. apply (Qmult_le_compat_r _ _ 100) in H; [| discriminate].
  assert (a / 100 * 100 == a)%Q as Heq by field. by rewrite Heq in H.
Qed.

Lemma hundredths_le_r (b x : Q) : (x <= b / 100 → x * 100 <= b)%Q.
Proof.
  intros H. apply (Qmult_le_compat_r _ _ 100) in H; [| discriminate].
  assert (b / 100 * 100 == b)%Q as Heq by field. by rewrite Heq in H.
Qed.

Lemma round2_between (x : Q) (a b : Z) :
  (inject_Z a / 100 <= x <= inject_Z b / 100)%Q →
  (inject_Z a / 100 <= round2 x <= inject_Z b / 100)%Q.
Proof.
  intros [Ha%hundredths_le_l Hb%hundredths_le_r].
  destruct (round_half_even_between (x * 100) a b) as [Hra Hrb]; [done |].
  unfold round2. rewrite Zle_Qle in Hra, Hrb. split.
  - apply Qle_shift_div_l; [reflexivity |].
    assert (inject_Z a / 100 * 100 == inject_Z a)%Q as -> by field. done.
  - apply Qle_shift_div_r; [reflexivity |].
    assert (inject_Z b / 100 * 100 == inject_Z b)%Q as -> by field. done.
Qed.

Lemma transaction_structure_floor transactions :
  (20 <= factor (transaction_structure transactions))%Q.
Proof.
  cbn [factor transaction_structure]. apply Q.min_glb; [| discriminate].
  pose proof (simple_tx_ratio_bounds transactions). lra.
Qed.

(** *** The result from its parts *)

Lemma calculate_privacy_score_assemble tx txs target_address r :
  calculate_privacy_score (tx :: txs) target_address = Ok r →
  ∃ usage amounts,
    scan_transactions (tx :: txs) reuse0 = Ok usage
    ∧ amounts_of (tx :: txs) = Ok amounts
    ∧ r = assemble usage amounts (tx :: txs) target_address.
Proof.
  unfold calculate_privacy_score. cbv beta iota.
  destruct (scan_transactions (tx :: txs) reuse0) as [usage| |];
    cbn [mbind result_bind]; [| done ..].
  destruct (amounts_of (tx :: txs)) as [amounts| |];
    cbn [mbind result_bind]; [| done ..].
  cbv zeta. rewrite weighted_score_of_six. cbn [mbind result_bind].
  intros [= <-]. by exists usage, amounts.
Qed.

(** The score of a result, between the least and the greatest it can be
    given the floor of the structure factor. *)
Lemma assemble_score_floor usage amounts transactions target_address :
  (3 <= score (assemble usage amounts transactions target_address))%Q.
Proof.
  unfold assemble. cbv zeta. cbn [score].
  pose proof (address_diversity_bounds usage target_address).
  pose proof (timing_randomness_bounds transactions).
  pose proof (amount_diversity_bounds amounts).
  pose proof (transaction_structure_floor transactions).
  pose proof (script_diversity_bounds transactions).
  pose proof (size_consistency_bounds transactions).
  match goal with |- (_ <= round2 ?x)%Q =>
    destruct (round2_between x 300 10000) as [Hlow _] end.
  { pose proof (transaction_structure_bounds transactions).
    assert (inject_Z 300 / 100 == 3)%Q as -> by reflexivity.
    assert (inject_Z 10000 / 100 == 100)%Q as -> by reflexivity. lra. }
  eapply Qle_trans; [| exact Hlow]. discriminate.
Qed.

Lemma assemble_score_without_counts usage amounts transactions target_address :
  Forall (λ tx, input_count tx = None ∧ output_count tx = None) transactions →
  (score (assemble usage amounts transactions target_address) <= 88)%Q.
Proof.
  intros Hall. unfold assemble. cbv zeta. cbn [score].
  pose proof (address_diversity_bounds usage target_address).
  pose proof (timing_randomness_bounds transactions).
  pose proof (amount_diversity_bounds amounts).
  pose proof (transaction_structure_without_counts transactions Hall) as H20.
  pose proof (script_diversity_bounds transactions).
  pose proof (size_consistency_bounds transactions).
  match goal with |- (round2 ?x <= _)%Q =>
    destruct (round2_between x 0 8800) as [_ Hhigh] end.
  { assert (inject_Z 0 / 100 == 0)%Q as -> by reflexivity.
    assert (inject_Z 8800 / 100 == 88)%Q as -> by reflexivity. lra. }
  eapply Qle_trans; [exact Hhigh |]. discriminate.
Qed.

(** *** The records the driver collects *)

Lemma fetch_details_fetched fetch max_transactions summaries processed_count :
  Forall (λ tx, ∃ response, get_transaction_data response = Some tx)
         (fetch_details fetch max_transactions summaries processed_count).
Proof.
  revert processed_count.
  induction summaries as [|s summaries IH]; intros processed_count; simpl;
    [constructor |].
  case_decide; [constructor |].
  destruct (get_transaction_data (fetch (hash s))) as [tx|] eqn:Htx;
    [| apply IH].
  constructor; [by eexists | apply IH].
Qed.

Lemma fetch_details_length fetch max_transactions summaries processed_count :
  (Z.of_nat (length (fetch_details fetch max_transactions summaries
                       processed_count))
   ≤ Z.max 0 (max_transactions - processed_count))%Z
  ∧ (length (fetch_details fetch max_transactions summaries processed_count)
     ≤ length summaries)%nat.
Proof.
  revert processed_count.
  induction summaries as [|s summaries IH]; intros processed_count;
    cbn [fetch_details]; [simpl; lia |].
  case_decide; [simpl; lia |].
  destruct (get_transaction_data (fetch (hash s))) as [tx|].
  - specialize (IH (processed_count + 1)%Z).
    rewrite !length_cons, Nat2Z.inj_succ. lia.
  - specialize (IH processed_count). rewrite length_cons. lia.
Qed.

Lemma slice_to_length {A : Type} (l : list A) (limit : Z) :
  (0 ≤ limit)%Z → (Z.of_nat (length (slice_to l limit)) ≤ limit)%Z.
Proof.
  intros Hlimit. unfold slice_to. rewrite decide_True by done.
  rewrite length_take. lia.
Qed.

Lemma omap_length_le {A B : Type} (f : A → option B) (l : list A) :
  (length (omap f l) ≤ length l)%nat.
Proof.
  induction l as [|a l IH]; csimpl; [done |]. destruct (f a); simpl; lia.
Qed.

(** *** The first loop counts addresses *)

Lemma scan_inputs_ok l s s' :
  scan_inputs l s = Ok s' →
  s' = foldl (λ s a, note_address a s) s (omap sender l).
Proof.
  revert s. induction l as [|inp l IH]; intros s; csimpl; [by intros [= ->] |].
  destruct (sender inp) as [a|]; [| done]. apply IH.
Qed.

Lemma scan_outputs_ok l s s' :
  scan_outputs l s = Ok s' →
  s' = foldl (λ s a, note_address a s) s (omap recipient l).
Proof.
  revert s. induction l as [|out l IH]; intros s; csimpl; [by intros [= ->] |].
  destruct (recipient out) as [a|]; [| done]. apply IH.
Qed.

Lemma scan_transactions_ok txs s s' :
  scan_transactions txs s = Ok s' →
  s' = foldl (λ s a, note_address a s) s (addresses_of txs).
Proof.
  unfold addresses_of. revert s.
  induction txs as [|tx txs IH]; intros s; [by intros [= ->] |].
  cbn [scan_transactions]. rewrite bind_cons, foldl_app.
  unfold addresses_of_tx at 1. rewrite foldl_app.
  destruct (inputs tx) as [ins|]; cbn [default].
  - destruct (scan_inputs ins s) as [s1| |] eqn:Hs1;
      cbn [mbind result_bind]; [| done ..].
    apply scan_inputs_ok in Hs1 as ->.
    destruct (outputs tx) as [outs|]; cbn [default].
    + destruct (scan_outputs outs _) as [s2| |] eqn:Hs2;
        cbn [mbind result_bind]; [| done ..].
      apply scan_outputs_ok in Hs2 as ->. apply IH.
    + apply IH.
  - cbn [mbind result_bind]. destruct (outputs tx) as [outs|]; cbn [default].
    + destruct (scan_outputs outs _) as [s2| |] eqn:Hs2;
        cbn [mbind result_bind]; [| done ..].
      apply scan_outputs_ok in Hs2 as ->. apply IH.
    + apply IH.
Qed.

Lemma counted_cons a addrs :
  counted (a :: addrs)
  = if decide (a = "N/A (script)") then counted addrs else a :: counted addrs.
Proof.
  unfold counted. rewrite filter_cons. by repeat case_decide.
Qed.

Lemma noted_unique addrs s :
  unique_addresses (foldl (λ s a, note_address a s) s addrs)
  = list_to_set (counted addrs) ∪ unique_addresses s.
Proof.
  revert s. induction addrs as [|a addrs IH]; intros s.
  { cbn. by rewrite (left_id_L ∅ (∪)). }
  cbn [foldl]. rewrite IH, counted_cons. unfold note_address.
  case_decide; [done |]. cbn [unique_addresses list_to_set]. set_solver.
Qed.

Lemma noted_total addrs s :
  total_interactions (foldl (λ s a, note_address a s) s addrs)
  = (total_interactions s + Z.of_nat (length (counted addrs)))%Z.
Proof.
  revert s. induction addrs as [|a addrs IH]; intros s; [cbn; lia |].
  cbn [foldl]. rewrite IH, counted_cons. unfold note_address.
  case_decide; [done |]. cbn [total_interactions length]. lia.
Qed.

Lemma occurrences_cons a b addrs :
  occurrences a (b :: addrs)
  = ((if decide (b = a) then 1 else 0) + occurrences a addrs)%Z.
Proof.
  unfold occurrences. rewrite filter_cons. case_decide; cbn [length]; lia.
Qed.

Lemma noted_target_reuse addrs s target_address :
  target_reuse (foldl (λ s a, note_address a s) s addrs) target_address
  = (target_reuse s target_address
     + occurrences target_address (counted addrs))%Z.
Proof.
  revert s. induction addrs as [|a addrs IH]; intros s.
  { cbn. unfold occurrences. cbn. lia. }
  cbn [foldl]. rewrite IH, counted_cons. unfold note_address.
  case_decide; [done |]. rewrite occurrences_cons.
  unfold target_reuse at 1. cbn [address_usage].
  rewrite lookup_insert. unfold target_reuse.
  case_decide; [subst a; cbn [default from_option]; unfold id |]; lia.
Qed.

Lemma scan_transactions_counts txs usage target_address :
  scan_transactions txs reuse0 = Ok usage →
  unique_addresses usage = list_to_set (counted (addresses_of txs))
  ∧ total_interactions usage
    = Z.of_nat (length (counted (addresses_of txs)))
  ∧ target_reuse usage target_address
    = occurrences target_address (counted (addresses_of txs)).
Proof.
  intros ->%scan_transactions_ok.
  rewrite noted_unique, noted_total, noted_target_reuse.
  cbn [reuse0 unique_addresses total_interactions].
  unfold target_reuse. cbn [reuse0 address_usage].
  rewrite lookup_empty, (right_id_L ∅ (∪)). cbn [default]. done.
Qed.

(** *** The third loop collects the output values *)

Lemma values_of_ok l vs : values_of l = Ok vs → vs = omap value l.
Proof.
  revert vs. induction l as [|out l IH]; intros vs; csimpl;
    [by intros [= <-] |].
  destruct (value out) as [v|]; [| done].
  destruct (values_of l) as [vs'| |]; cbn [mbind result_bind]; [| done ..].
  intros [= <-]. by rewrite (IH vs').
Qed.

Lemma amounts_of_ok txs amounts :
  amounts_of txs = Ok amounts → amounts = values_of_outputs txs.
Proof.
  unfold values_of_outputs. revert amounts.
  induction txs as [|tx txs IH]; intros amounts; [by intros [= <-] |].
  cbn [amounts_of]. rewrite bind_cons. unfold values_of_tx.
  destruct (outputs tx) as [outs|]; cbn [default].
  - destruct (values_of outs) as [here| |] eqn:Hhere;
      cbn [mbind result_bind]; [| done ..].
    apply values_of_ok in Hhere as ->.
    destruct (amounts_of txs) as [rest| |]; cbn [mbind result_bind];
      [| done ..].
    intros [= <-]. by rewrite (IH rest).
  - cbn [mbind result_bind].
    destruct (amounts_of txs) as [rest| |]; cbn [mbind result_bind];
      [| done ..].
    intros [= <-]. by rewrite (IH rest).
Qed.

Lemma count_if_all {A : Type} (p : A → bool) (l : list A) :
  Forall (λ a, p a = true) l → count_if p l = Z.of_nat (length l).
Proof.
  unfold count_if. induction 1 as [|a l Ha _ IH]; [done |].
  cbn [List.filter]. rewrite Ha. cbn [length]. lia.
Qed.

Lemma count_if_none {A : Type} (p : A → bool) (l : list A) :
  Forall (λ a, p a = false) l → count_if p l = 0%Z.
Proof.
  unfold count_if. induction 1 as [|a l Ha _ IH]; [done |].
  cbn [List.filter]. by rewrite Ha.
Qed.

Lemma get_address_transactions_length_50 data :
  (length (get_address_transactions (Some data) 50) ≤ 50)%nat.
Proof.
  cbn [get_address_transactions].
  pose proof (omap_length_le summarise (slice_to data 50)).
  pose proof (slice_to_length data 50). lia.
Qed.

End client_facts.

(** * The score under a reordering of the transactions *)

Module order_facts.
Import addressny addressny_facts addressny_client client_facts.

(** *** Folds that do not depend on the order *)

Lemma fold_left_perm {A B : Type} (f : A → B → A) (l l' : list B) :
  (∀ a x y, f (f a x) y = f (f a y) x) →
  l ≡ₚ l' → ∀ a, fold_left f l a = fold_left f l' a.
Proof.
  intros Hcomm Hperm.
  induction Hperm as [|x l l' _ IH|x y l|l l' l'' _ IH1 _ IH2]; intros a.
  - done.
  - simpl. apply IH.
  - simpl. by rewrite Hcomm.
  - by rewrite IH1.
Qed.

Lemma List_filter_perm {A : Type} (p : A → bool) (l l' : list A) :
  l ≡ₚ l' → List.filter p l ≡ₚ List.filter p l'.
Proof.
  induction 1 as [|x l l' _ IH|x y l|l l' l'' _ IH1 _ IH2].
  - done.
  - simpl. destruct (p x); [by constructor | done].
  - simpl. destruct (p x), (p y); try done. constructor.
  - by etrans.
Qed.

Lemma count_if_perm {A : Type} (p : A → bool) (l l' : list A) :
  l ≡ₚ l' → count_if p l = count_if p l'.
Proof.
  intros Hperm. unfold count_if.
  by rewrite (Permutation_length (List_filter_perm p l l' Hperm)).
Qed.

Lemma Zsum_perm (l l' : list Z) : l ≡ₚ l' → Zsum l = Zsum l'.
Proof.
  intros Hperm. unfold Zsum. apply fold_left_perm; [| done].
  intros a x y. lia.
Qed.

Lemma Qplus_swap (a x y : Q) : (a + x + y = a + y + x)%Q.
Proof.
  destruct a as [an ad], x as [xn xd], y as [yn yd].
  unfold Qplus. simpl. f_equal.
  - rewrite !Pos2Z.inj_mul. ring.
  - rewrite <- !Pos.mul_assoc. f_equal. apply Pos.mul_comm.
Qed.

Lemma Qsum_perm (l l' : list Q) : l ≡ₚ l' → Qsum l = Qsum l'.
Proof.
  intros Hperm. unfold Qsum. apply fold_left_perm; [| done].
  apply Qplus_swap.
Qed.

(** *** Each part of the score under a reordering *)

Lemma address_diversity_perm txs txs' usage usage' target_address :
  txs ≡ₚ txs' →
  scan_transactions txs reuse0 = Ok usage →
  scan_transactions txs' reuse0 = Ok usage' →
  address_diversity usage target_address
  = address_diversity usage' target_address.
Proof.
  intros Hperm Hu Hu'.
  destruct (scan_transactions_counts _ _ target_address Hu) as (H1 & H2 & H3).
  destruct (scan_transactions_counts _ _ target_address Hu')
    as (H1' & H2' & H3').
  assert (counted (addresses_of txs) ≡ₚ counted (addresses_of txs')) as Hc.
  { unfold counted, addresses_of. by apply filter_Permutation, bind_Permutation. }
  unfold address_diversity, reuse_ratio.
  rewrite H1, H2, H3, H1', H2', H3'.
  rewrite (list_to_set_perm_L _ _ Hc), (Permutation_length Hc).
  unfold occurrences.
  by rewrite (Permutation_length
                (filter_Permutation (λ b, b = target_address) _ _ Hc)).
Qed.

Lemma timing_randomness_perm txs txs' :
  txs ≡ₚ txs' → timing_randomness txs = timing_randomness txs'.
Proof.
  intros Hperm.
  assert (timestamps_of txs ≡ₚ timestamps_of txs') as Hts.
  { unfold timestamps_of. by apply omap_Permutation. }
  unfold timing_randomness. rewrite (Permutation_length Hts).
  assert (merge_sort Z.le (timestamps_of txs)
          = merge_sort Z.le (timestamps_of txs')) as ->; [| done].
  apply (Sorted_unique Z.le); [apply Sorted_merge_sort, _ .. |].
  by rewrite !merge_sort_Permutation.
Qed.

Lemma amount_counts_of_perm amounts amounts' :
  amounts ≡ₚ amounts' → amount_counts_of amounts = amount_counts_of amounts'.
Proof.
  intros Hperm. unfold amount_counts_of. apply fold_left_perm; [| done].
  intros m x y. destruct (decide (x = y)) as [->|Hne]; [done |].
  rewrite !lookup_insert_ne by done. by apply insert_insert_ne.
Qed.

Lemma amount_diversity_perm amounts amounts' :
  amounts ≡ₚ amounts' → amount_diversity amounts = amount_diversity amounts'.
Proof.
  intros Hperm. unfold amount_diversity.
  destruct amounts as [|v amounts], amounts' as [|v' amounts''].
  - done.
  - by apply Permutation_nil_cons in Hperm.
  - symmetry in Hperm. by apply Permutation_nil_cons in Hperm.
  - unfold round_amounts_of, repeated_amounts_of, len.
    rewrite (count_if_perm _ _ _ Hperm), (Permutation_length Hperm).
    by rewrite (amount_counts_of_perm _ _ Hperm).
Qed.

Lemma counts_combined txs :
  combine (input_counts_of txs) (output_counts_of txs)
  = map (λ tx, (default 1 (input_count tx), default 1 (output_count tx))) txs.
Proof.
  unfold input_counts_of, output_counts_of.
  induction txs as [|tx txs IH]; [done |]. simpl. by rewrite IH.
Qed.

Lemma transaction_structure_perm txs txs' :
  txs ≡ₚ txs' → transaction_structure txs = transaction_structure txs'.
Proof.
  intros Hperm.
  assert (map (λ tx, (default 1 (input_count tx),
                      default 1 (output_count tx))) txs
          ≡ₚ map (λ tx, (default 1 (input_count tx),
                         default 1 (output_count tx))) txs') as Hc
    by (by apply Permutation_map).
  unfold transaction_structure, simple_tx_ratio_of, complex_tx_ratio_of, len.
  rewrite !counts_combined.
  rewrite (count_if_perm is_simple _ _ Hc), (count_if_perm is_complex _ _ Hc).
  by rewrite (Permutation_length Hperm).
Qed.

Lemma script_types_of_perm txs txs' :
  txs ≡ₚ txs' → script_types_of txs = script_types_of txs'.
Proof.
  intros Hperm. unfold script_types_of. apply fold_left_perm; [| done].
  intros acc x y. unfold script_types_of_tx.
  destruct (inputs x), (outputs x), (inputs y), (outputs y); set_solver.
Qed.

Lemma script_diversity_perm txs txs' :
  txs ≡ₚ txs' → script_diversity txs = script_diversity txs'.
Proof.
  intros Hperm. unfold script_diversity.
  by rewrite (script_types_of_perm _ _ Hperm).
Qed.

Lemma sizes_of_perm txs txs' : txs ≡ₚ txs' → sizes_of txs ≡ₚ sizes_of txs'.
Proof.
  intros Hperm. unfold sizes_of. by apply List_filter_perm, Permutation_map.
Qed.

Lemma size_consistency_perm txs txs' :
  txs ≡ₚ txs' → size_consistency txs = size_consistency txs'.
Proof.
  intros Hperm%sizes_of_perm. unfold size_consistency.
  destruct (sizes_of txs) as [|s sizes], (sizes_of txs') as [|s' sizes'].
  - done.
  - by apply Permutation_nil_cons in Hperm.
  - symmetry in Hperm. by apply Permutation_nil_cons in Hperm.
  - assert (avg_size_of (s :: sizes) = avg_size_of (s' :: sizes')) as Havg.
    { unfold avg_size_of, len.
      by rewrite (Zsum_perm _ _ Hperm), (Permutation_length Hperm). }
    assert (size_variance_of (s :: sizes) = size_variance_of (s' :: sizes'))
      as Hvar.
    { unfold size_variance_of, len. rewrite Havg.
      rewrite (Permutation_length Hperm). f_equal.
      by apply Qsum_perm, Permutation_map. }
    by rewrite Havg, Hvar.
Qed.

Lemma normalised_perm txs txs' :
  txs ≡ₚ txs' → Forall normalised txs → Forall normalised txs'.
Proof. intros Hperm. by rewrite Hperm. Qed.

Lemma calculate_privacy_score_perm txs txs' target_address r r' :
  txs ≡ₚ txs' →
  calculate_privacy_score txs target_address = Ok r →
  calculate_privacy_score txs' target_address = Ok r' →
  score r = score r' ∧ factors r = factors r'
  ∧ recommendations r = recommendations r'.
Proof.
  intros Hperm Hr Hr'.
  destruct txs as [|tx txs], txs' as [|tx' txs'].
  - injection Hr as <-. by injection Hr' as <-.
  - by apply Permutation_nil_cons in Hperm.
  - symmetry in Hperm. by apply Permutation_nil_cons in Hperm.
  - apply calculate_privacy_score_assemble in Hr
      as (usage & amounts & Hu & Ha & ->).
    apply calculate_privacy_score_assemble in Hr'
      as (usage' & amounts' & Hu' & Ha' & ->).
    apply amounts_of_ok in Ha as ->. apply amounts_of_ok in Ha' as ->.
    assert (values_of_outputs (tx :: txs) ≡ₚ values_of_outputs (tx' :: txs'))
      as Hv by (unfold values_of_outputs; by apply bind_Permutation).
    unfold assemble. cbv zeta. cbn [score factors recommendations].
    rewrite (address_diversity_perm _ _ _ _ target_address Hperm Hu Hu').
    rewrite (timing_randomness_perm _ _ Hperm).
    rewrite (amount_diversity_perm _ _ Hv).
    rewrite (transaction_structure_perm _ _ Hperm).
    rewrite (script_diversity_perm _ _ Hperm).
    rewrite (size_consistency_perm _ _ Hperm). done.
Qed.

(** *** Evenly spaced timestamps and equal sizes *)

Lemma Zsum_const (l : list Z) (d : Z) :
  Forall (λ i, i = d) l → Zsum l = (Z.of_nat (length l) * d)%Z.
Proof.
  intros Hall. unfold Zsum.
  assert (∀ a, fold_left Z.add l a = (a + Z.of_nat (length l) * d)%Z) as ->;
    [| lia].
  induction Hall as [|i l -> _ IH]; intros a; [simpl; lia |].
  cbn [fold_left]. rewrite IH, length_cons, Nat2Z.inj_succ. lia.
Qed.

Lemma mean_const (l : list Z) (d : Z) :
  l ≠ [] → Forall (λ i, i = d) l →
  (inject_Z (Zsum l) / len l == inject_Z d)%Q.
Proof.
  intros Hne Hall. rewrite (Zsum_const l d Hall). unfold len.
  rewrite inject_Z_mult. field.
  change 0%Q with (inject_Z 0). rewrite inject_Z_injective.
  destruct l; [done | simpl; lia].
Qed.

Lemma ratio_one {A : Type} (l : list A) :
  l ≠ [] → (inject_Z (Z.of_nat (length l)) / len l == 1)%Q.
Proof.
  intros Hne. unfold len. field.
  change 0%Q with (inject_Z 0). rewrite inject_Z_injective.
  destruct l; [done | simpl; lia].
Qed.

Lemma regular_pattern_evenly_spaced (intervals : list Z) (d : Z) :
  intervals ≠ [] → Forall (λ i, i = d) intervals →
  (regular_pattern_of intervals == 1)%Q.
Proof.
  intros Hne Hall. unfold regular_pattern_of.
  rewrite count_if_all; [by apply ratio_one |].
  eapply Forall_impl; [exact Hall |]. intros i ->.
  apply is_regular_spec. unfold avg_interval_of.
  assert (inject_Z d - inject_Z (Zsum intervals) / len intervals == 0)%Q
    as ->; [| reflexivity].
  rewrite (mean_const intervals d Hne Hall). ring.
Qed.

Lemma intervals_of_two (ts : list Z) :
  length ts = 2%nat →
  ∃ d, intervals_of (merge_sort Z.le ts) = [d].
Proof.
  intros Hlen.
  pose proof (Permutation_length (merge_sort_Permutation Z.le ts)) as Hsorted.
  rewrite Hlen in Hsorted.
  destruct (merge_sort Z.le ts) as [|a [|b [|c sorted]]]; try done.
  by eexists.
Qed.

Lemma timing_randomness_evenly_spaced transactions (d : Z) :
  (2 ≤ length (timestamps_of transactions))%nat →
  Forall (λ i, i = d)
         (intervals_of (merge_sort Z.le (timestamps_of transactions))) →
  (factor (timing_randomness transactions) == 0)%Q
  ∧ (∃ hours, new_details (timing_randomness transactions)
              = [ ("avg_time_between_tx", DNum hours);
                  ("regular_timing_pattern", DBool true) ])
  ∧ new_recommendations (timing_randomness transactions)
    = ["Vary transaction timing to avoid predictable patterns"].
Proof.
  intros Hlen Hall. unfold timing_randomness.
  rewrite bool_decide_eq_true_2 by lia.
  set (intervals := intervals_of _) in *.
  assert (intervals ≠ []) as Hne.
  { intros Hnil.
    pose proof (intervals_of_length
                  (merge_sort Z.le (timestamps_of transactions))) as Hi.
    fold intervals in Hi. rewrite Hnil in Hi.
    rewrite (Permutation_length (merge_sort_Permutation Z.le _)) in Hi.
    simpl in Hi. lia. }
  pose proof (regular_pattern_evenly_spaced intervals d Hne Hall) as Hone.
  assert (Qltb (7 # 10) (regular_pattern_of intervals) = true) as Hlt.
  { apply Qltb_lt. rewrite Hone. reflexivity. }
  cbn [factor new_details new_recommendations]. rewrite Hlt.
  split; [rewrite Hone; reflexivity |]. split; [by eexists | done].
Qed.

Lemma Qsum_zero (l : list Q) : Forall (λ q, q == 0)%Q l → (Qsum l == 0)%Q.
Proof.
  intros Hall. unfold Qsum.
  assert (∀ a, fold_left Qplus l a == a)%Q as ->; [| reflexivity].
  induction Hall as [|q l Hq _ IH]; intros a; [reflexivity |].
  cbn [fold_left]. rewrite IH, Hq. ring.
Qed.

Lemma size_consistency_equal_sizes transactions (c : Z) :
  sizes_of transactions ≠ [] →
  Forall (λ s, s = c) (sizes_of transactions) →
  (factor (size_consistency transactions) == 100)%Q.
Proof.
  intros Hne Hall. unfold size_consistency.
  destruct (sizes_of transactions) as [|s sizes] eqn:Hsizes; [done |].
  cbn [factor].
  assert (size_variance_of (s :: sizes) == 0)%Q as Hvar.
  { unfold size_variance_of.
    assert (Qsum (map (λ s0, (inject_Z s0 - avg_size_of (s :: sizes)) ^ 2)
                      (s :: sizes)) == 0)%Q as ->; [| apply Qmult_0_l].
    apply Qsum_zero, Forall_map.
    eapply Forall_impl; [exact Hall |]. intros s0 ->. cbn beta.
    unfold avg_size_of. rewrite (mean_const (s :: sizes) c Hne Hall).
    simpl. ring. }
  apply Qle_antisym; [apply Q.le_min_r |].
  apply Q.min_glb; [| apply Qle_refl].
  eapply Qle_trans; [| apply Q.le_max_r].
  rewrite Hvar. unfold Qdiv. rewrite Qmult_0_l, Qmult_0_l. discriminate.
Qed.

End order_facts.

(** * More properties of the privacy score *)

Module score_properties.
Import addressny addressny_facts addressny_client client_facts order_facts.

(** X10.  [make_request] sends at most [max_retries] requests.  It returns a
    body exactly when some request among them is answered with status 200
    and every request before it was rate limited (429) or raised; that
    request is then the last one sent.  Any other status ends the loop with
    no result. *)
Theorem make_request_retries {J : Type} (net : nat → reply J)
    (max_retries : Z) :
  ((make_request net max_retries).2 ≤ Z.to_nat max_retries)%nat
  ∧ ∀ json,
      (make_request net max_retries).1 = Some json
      ↔ ∃ k, (k < Z.to_nat max_retries)%nat
             ∧ net k = Response 200 json
             ∧ (∀ i, (i < k)%nat → retried (net i))
             ∧ (make_request net max_retries).2 = S k.
Proof.
  unfold make_request. split.
  - pose proof (attempts_requests net (Z.to_nat max_retries) 0). lia.
  - intros json. rewrite attempts_success. split.
    + intros (k & Hk & Hok & Hretried & Hcount). exists k.
      split; [lia |]. split; [done |]. split; [| done].
      intros i Hi. apply Hretried. lia.
    + intros (k & Hk & Hok & Hretried & Hcount). exists k.
      split; [lia |]. split; [done |]. split; [| done].
      intros i Hi. apply Hretried. lia.
Qed.

(** X11.  [get_address_transactions] answers a failed request with the
    empty list.  Otherwise it returns no more summaries than the response
    has transactions, nor more than a non-negative limit; each summary
    stems from a transaction of the response that has its txid and status,
    the others being skipped, and its counts are the numbers of inputs and
    outputs of that transaction. *)
Theorem get_address_transactions_summaries (limit : Z) :
  get_address_transactions None limit = []
  ∧ ∀ data,
      let summaries := get_address_transactions (Some data) limit in
      (length summaries ≤ length data)%nat
      ∧ ((0 ≤ limit)%Z → (Z.of_nat (length summaries) ≤ limit)%Z)
      ∧ Forall (λ s, ∃ tx, tx ∈ data
                           ∧ txid tx = Some (hash s)
                           ∧ is_Some (status tx)
                           ∧ summary_input_count s
                             = Z.of_nat (length (default [] (vin tx)))
                           ∧ summary_output_count s
                             = Z.of_nat (length (default [] (vout tx))))
               summaries.
Proof.
  split; [done |]. intros data. cbv zeta. cbn [get_address_transactions].
  assert (length (slice_to data limit) ≤ length data)%nat as Hslice.
  { unfold slice_to. case_decide; rewrite length_take; lia. }
  split; [| split].
  - pose proof (omap_length_le summarise (slice_to data limit)). lia.
  - intros Hlimit. pose proof (slice_to_length data limit Hlimit).
    pose proof (omap_length_le summarise (slice_to data limit)). lia.
  - apply Forall_forall. intros s (tx & Htx & Hs)%list_elem_of_omap.
    exists tx. split.
    { unfold slice_to in Htx.
      case_decide; by eapply subseteq_take. }
    unfold summarise in Hs.
    destruct (txid tx) as [id|]; [| done].
    destruct (status tx) as [st|]; [| done].
    injection Hs as <-. cbn. split; [done |]. split; [by eexists | done].
Qed.

(** X12.  The driver hands at most [max_transactions] records, and at most
    50, to the score.  When it scores at all the score does not raise, since
    every record comes from [get_transaction_data]; the structure factor is
    20, the recommendation of simple structures is always made, and the
    score lies between 3 and 88. *)
Theorem analyze_privacy_score_scores (response : option (list RawTx))
    (fetch : string → option RawTx) (address : string) (max_transactions : Z) :
  match analyze_privacy_score response fetch address max_transactions with
  | None => True
  | Some outcome =>
      ∃ r f, outcome = Ok r
             ∧ (3 <= score r <= 88)%Q
             ∧ getitem (factors r) "transaction_structure" = Ok f
             ∧ (f == 20)%Q
             ∧ "Consider using simple transaction structures (1 input, 2 outputs) for better privacy"
               ∈ recommendations r
  end
  ∧ let all_full_tx_data :=
      fetch_details fetch max_transactions
        (get_address_transactions response 50) 0 in
    (length all_full_tx_data ≤ 50)%nat
    ∧ (Z.of_nat (length all_full_tx_data) ≤ Z.max 0 max_transactions)%Z.
Proof.
  split.
  - unfold analyze_privacy_score.
    destruct (get_address_transactions response 50) as [|s summaries];
      [done |].
    pose proof (fetch_details_fetched fetch max_transactions (s :: summaries) 0)
      as Hfetched.
    destruct (fetch_details fetch max_transactions (s :: summaries) 0)
      as [|tx txs]; [done |].
    assert (Forall normalised (tx :: txs)) as Hnorm.
    { eapply Forall_impl; [exact Hfetched |]. intros tx' [resp Htx'].
      by apply get_transaction_data_normalised in Htx' as [? _]. }
    assert (Forall (λ tx, input_count tx = None ∧ output_count tx = None)
                   (tx :: txs)) as Hcounts.
    { eapply Forall_impl; [exact Hfetched |]. intros tx' [resp Htx'].
      by apply get_transaction_data_normalised in Htx' as [_ ?]. }
    apply (calculate_privacy_score_returns _ address) in Hnorm as [r Hr].
    rewrite Hr.
    apply calculate_privacy_score_assemble in Hr
      as (usage & amounts & _ & _ & ->).
    eexists _, _. split; [done |]. split; [split |].
    + apply assemble_score_floor.
    + by apply assemble_score_without_counts.
    + split; [reflexivity |]. split.
      * by apply transaction_structure_without_counts.
      * cbn [recommendations assemble]. rewrite !elem_of_app.
        do 3 right. left. cbn [new_recommendations transaction_structure].
        apply elem_of_app. left.
        assert (Qltb (simple_tx_ratio_of (tx :: txs)) (3 # 10) = true) as ->.
        { apply Qltb_lt. rewrite (simple_tx_ratio_without_counts _ Hcounts).
          reflexivity. }
        by apply list_elem_of_singleton.
  - cbv zeta.
    destruct (fetch_details_length fetch max_transactions
                (get_address_transactions response 50) 0) as [Hmax Hlen].
    split; [| lia].
    destruct response as [data|]; [| cbn in *; lia].
    pose proof (get_address_transactions_length_50 data). lia.
Qed.

(** X13.  On a non-empty list the structure factor is at least 20, so the
    score is never below 3. *)
Theorem score_floor (transactions : list Tx) (target_address : string)
    (r : Analysis) :
  transactions ≠ [] →
  calculate_privacy_score transactions target_address = Ok r →
  (3 <= score r)%Q
  ∧ ∃ f, getitem (factors r) "transaction_structure" = Ok f ∧ (20 <= f)%Q.
Proof.
  intros Hne Hr. destruct transactions as [|tx txs]; [done |].
  apply calculate_privacy_score_assemble in Hr
    as (usage & amounts & _ & _ & ->).
  split; [apply assemble_score_floor |].
  eexists. split; [reflexivity |]. apply transaction_structure_floor.
Qed.

Lemma score_floor_witness :
  ∃ r, calculate_privacy_score [score_samples.one_in_two_out] "A" = Ok r
       ∧ (3 <= score r)%Q.
Proof.
  assert (∃ r, calculate_privacy_score [score_samples.one_in_two_out] "A"
               = Ok r) as [r Hr].
  { apply calculate_privacy_score_returns.
    repeat constructor; intros l [= <-]; repeat constructor; by eexists. }
  exists r. split; [exact Hr |].
  apply (score_floor [score_samples.one_in_two_out] "A" r);
    [discriminate | exact Hr].
Defined.

(** X14.  The first loop counts: the details report how often the target
    occurs among the senders and recipients, how many occurrences and how
    many distinct addresses there are, the placeholder ["N/A (script)"] left
    out of all three.  With no address at all the diversity factor is 0;
    when no address occurs twice it is 100. *)
Theorem address_reuse_counts (transactions : list Tx)
    (target_address : string) (r : Analysis) :
  transactions ≠ [] →
  calculate_privacy_score transactions target_address = Ok r →
  let addrs := counted (addresses_of transactions) in
  getitem (details r) "address_reuse_count"
  = Ok (DNum (inject_Z (occurrences target_address addrs)))
  ∧ getitem (details r) "unique_addresses"
    = Ok (DNum (inject_Z (Z.of_nat (size (list_to_set addrs : gset string)))))
  ∧ getitem (details r) "total_interactions"
    = Ok (DNum (inject_Z (Z.of_nat (length addrs))))
  ∧ ("N/A (script)" ∉ addrs)
  ∧ ∃ f, getitem (factors r) "address_diversity" = Ok f
         ∧ (addrs = [] → f == 0)%Q
         ∧ (addrs ≠ [] → NoDup addrs → f == 100)%Q.
Proof.
  intros Hne Hr. cbv zeta. destruct transactions as [|tx txs]; [done |].
  apply calculate_privacy_score_assemble in Hr
    as (usage & amounts & Husage & _ & ->).
  destruct (scan_transactions_counts _ _ target_address Husage)
    as (Hunique & Htotal & Htarget).
  set (addrs := counted (addresses_of (tx :: txs))) in *.
  cbn [details assemble new_details address_diversity app getitem].
  rewrite !decide_True by done. rewrite Htarget, Hunique, Htotal.
  split; [done |]. split; [by repeat case_decide |].
  split; [by repeat case_decide |]. split.
  { unfold addrs, counted. intros [? _]%list_elem_of_filter. done. }
  eexists. split; [reflexivity |].
  cbn [factor address_diversity]. unfold reuse_ratio.
  rewrite Hunique, Htotal. split.
  - intros ->. reflexivity.
  - intros Hnonempty Hnodup. rewrite size_list_to_set by done.
    assert (0 < length addrs)%nat by (destruct addrs; [done | simpl; lia]).
    rewrite Z.max_l by lia.
    assert (inject_Z (Z.of_nat (length addrs))
            / inject_Z (Z.of_nat (length addrs)) * 100 == 100)%Q as Hq.
    { field. change 0%Q with (inject_Z 0). rewrite inject_Z_injective. lia. }
    apply Qle_antisym; [apply Q.le_min_r |].
    apply Q.min_glb; [| apply Qle_refl]. rewrite Hq. apply Qle_refl.
Qed.

Lemma address_reuse_counts_witness :
  ∃ r, calculate_privacy_score score_samples.same_block "A" = Ok r
       ∧ getitem (details r) "address_reuse_count" = Ok (DNum (inject_Z 2)).
Proof.
  assert (∃ r, calculate_privacy_score score_samples.same_block "A" = Ok r)
    as [r Hr].
  { apply calculate_privacy_score_returns.
    repeat constructor; intros l [= <-]; repeat constructor; by eexists. }
  exists r. split; [exact Hr |].
  destruct (address_reuse_counts score_samples.same_block "A" r)
    as [Hcount _]; [discriminate | exact Hr |].
  exact Hcount.
Defined.

(** X15.  With no output at all the amount factor is the neutral 50; when
    every output value is a multiple of 100000 it is 0 and round amounts
    are advised against; when none is, it is 100. *)
Theorem amount_diversity_of_round_amounts (transactions : list Tx)
    (target_address : string) (r : Analysis) :
  transactions ≠ [] →
  calculate_privacy_score transactions target_address = Ok r →
  let amounts := values_of_outputs transactions in
  ∃ f, getitem (factors r) "amount_diversity" = Ok f
       ∧ (amounts = [] → f = 50%Q)
       ∧ (amounts ≠ [] → Forall (λ v, v `mod` 100000 = 0) amounts →
          (f == 0)%Q
          ∧ "Avoid round number amounts to improve transaction privacy"
            ∈ recommendations r)
       ∧ (amounts ≠ [] → Forall (λ v, v `mod` 100000 ≠ 0) amounts →
          (f == 100)%Q).
Proof.
  intros Hne Hr. cbv zeta. destruct transactions as [|tx txs]; [done |].
  apply calculate_privacy_score_assemble in Hr
    as (usage & amounts & _ & Hamounts & ->).
  apply amounts_of_ok in Hamounts as ->.
  set (amounts := values_of_outputs (tx :: txs)).
  eexists. split; [reflexivity |].
  assert (∀ n : nat, (0 < n)%nat →
            (inject_Z (Z.of_nat n) / inject_Z (Z.of_nat n) == 1)%Q) as Hone.
  { intros n Hn. field. change 0%Q with (inject_Z 0).
    rewrite inject_Z_injective. lia. }
  split; [by intros -> |]. split.
  - intros Hnonempty Hround.
    assert (0 < length amounts)%nat
      by (destruct amounts; [done | simpl; lia]).
    assert (round_amounts_of amounts = Z.of_nat (length amounts)) as Hall.
    { apply count_if_all. eapply Forall_impl; [exact Hround |].
      intros v Hv. by apply bool_decide_eq_true. }
    destruct amounts as [|v amounts']; [done |].
    cbn [factor amount_diversity recommendations assemble new_recommendations].
    rewrite Hall. unfold len. split.
    + rewrite Hone by done. reflexivity.
    + rewrite !elem_of_app. do 2 right. left.
      assert (Qltb (3 # 10)
                (inject_Z (Z.of_nat (length (v :: amounts')))
                 / inject_Z (Z.of_nat (length (v :: amounts')))) = true)
        as ->.
      { apply Qltb_lt. rewrite Hone by done. reflexivity. }
      by apply list_elem_of_singleton.
  - intros Hnonempty Hodd.
    assert (round_amounts_of amounts = 0%Z) as Hnone.
    { apply count_if_none. eapply Forall_impl; [exact Hodd |].
      intros v Hv. by apply bool_decide_eq_false. }
    destruct amounts as [|v amounts']; [done |].
    cbn [factor amount_diversity]. rewrite Hnone.
    assert (inject_Z 0 / len (v :: amounts') == 0)%Q as -> by apply Qmult_0_l.
    reflexivity.
Qed.

Lemma amount_diversity_of_round_amounts_witness :
  ∃ r f, calculate_privacy_score [score_samples.one_in_two_out] "A" = Ok r
         ∧ getitem (factors r) "amount_diversity" = Ok f
         ∧ (f == 100)%Q.
Proof.
  assert (∃ r, calculate_privacy_score [score_samples.one_in_two_out] "A"
               = Ok r) as [r Hr].
  { apply calculate_privacy_score_returns.
    repeat constructor; intros l [= <-]; repeat constructor; by eexists. }
  destruct (amount_diversity_of_round_amounts
              [score_samples.one_in_two_out] "A" r)
    as (f & Hf & _ & _ & Hodd); [discriminate | exact Hr |].
  exists r, f. split; [exact Hr |]. split; [exact Hf |].
  apply Hodd; [discriminate |]. repeat constructor; by vm_compute.
Defined.

(** X16.  With just two timestamped transactions, and whenever the sorted
    timestamps are evenly spaced, every interval equals the mean: the timing
    is reported regular, the timing factor is 0 and varying the timing is
    advised. *)
Theorem timing_randomness_of_even_spacing (transactions : list Tx)
    (target_address : string) (r : Analysis) :
  transactions ≠ [] →
  calculate_privacy_score transactions target_address = Ok r →
  let timestamps := timestamps_of transactions in
  length timestamps = 2%nat
  ∨ ((2 ≤ length timestamps)%nat
     ∧ ∃ d, Forall (λ i, i = d) (intervals_of (merge_sort Z.le timestamps))) →
  ∃ f, getitem (factors r) "timing_randomness" = Ok f
       ∧ (f == 0)%Q
       ∧ getitem (details r) "regular_timing_pattern" = Ok (DBool true)
       ∧ "Vary transaction timing to avoid predictable patterns"
         ∈ recommendations r.
Proof.
  intros Hne Hr timestamps Hcase.
  assert ((2 ≤ length timestamps)%nat
          ∧ ∃ d, Forall (λ i, i = d)
                        (intervals_of (merge_sort Z.le timestamps)))
    as (Hlen & d & Heven).
  { destruct Hcase as [Htwo|?]; [| done]. split; [lia |].
    destruct (intervals_of_two timestamps Htwo) as [d ->].
    exists d. by repeat constructor. }
  destruct transactions as [|tx txs]; [done |].
  apply calculate_privacy_score_assemble in Hr
    as (usage & amounts & _ & _ & ->).
  destruct (timing_randomness_evenly_spaced (tx :: txs) d Hlen Heven)
    as (Hf & [hours Hdetails] & Hrecs).
  eexists. split; [reflexivity |]. split; [exact Hf |].
  cbn [details recommendations assemble]. rewrite Hdetails, Hrecs. split.
  - cbn [new_details address_diversity app getitem].
    by repeat case_decide.
  - rewrite !elem_of_app. right; left. by apply list_elem_of_singleton.
Qed.

Lemma timing_randomness_of_even_spacing_witness :
  ∃ r f, calculate_privacy_score score_samples.same_block "A" = Ok r
         ∧ getitem (factors r) "timing_randomness" = Ok f
         ∧ (f == 0)%Q.
Proof.
  assert (∃ r, calculate_privacy_score score_samples.same_block "A" = Ok r)
    as [r Hr].
  { apply calculate_privacy_score_returns.
    repeat constructor; intros l [= <-]; repeat constructor; by eexists. }
  destruct (timing_randomness_of_even_spacing score_samples.same_block "A" r)
    as (f & Hf & Hzero & _); [discriminate | exact Hr | by left |].
  by exists r, f.
Defined.

(** X17.  Without a positive size the size factor is the neutral 50; when
    all positive sizes are equal, as with a single transaction, it is
    100. *)
Theorem size_consistency_of_equal_sizes (transactions : list Tx)
    (target_address : string) (r : Analysis) :
  transactions ≠ [] →
  calculate_privacy_score transactions target_address = Ok r →
  ∃ f, getitem (factors r) "size_consistency" = Ok f
       ∧ (sizes_of transactions = [] → f = 50%Q)
       ∧ (sizes_of transactions ≠ [] →
          (∃ c, Forall (λ s, s = c) (sizes_of transactions)) →
          (f == 100)%Q).
Proof.
  intros Hne Hr. destruct transactions as [|tx txs]; [done |].
  apply calculate_privacy_score_assemble in Hr
    as (usage & amounts & _ & _ & ->).
  eexists. split; [reflexivity |]. split.
  - intros Hnone. unfold size_consistency. by rewrite Hnone.
  - intros Hsome [c Hall]. by eapply size_consistency_equal_sizes.
Qed.

Lemma size_consistency_of_equal_sizes_witness :
  ∃ r f, calculate_privacy_score [score_samples.one_in_two_out] "A" = Ok r
         ∧ getitem (factors r) "size_consistency" = Ok f
         ∧ (f == 100)%Q.
Proof.
  assert (∃ r, calculate_privacy_score [score_samples.one_in_two_out] "A"
               = Ok r) as [r Hr].
  { apply calculate_privacy_score_returns.
    repeat constructor; intros l [= <-]; repeat constructor; by eexists. }
  destruct (size_consistency_of_equal_sizes
              [score_samples.one_in_two_out] "A" r)
    as (f & Hf & _ & Hequal); [discriminate | exact Hr |].
  exists r, f. split; [exact Hr |]. split; [exact Hf |].
  apply Hequal; [discriminate |]. exists 225. by repeat constructor.
Defined.

(** X18.  Five of the six factors, and the recommendations, do not depend
    on the order of the transactions: they are computed from counts and
    from the sorted timestamps.  Two lists of well-formed records that are
    permutations of each other get the same value for every factor but
    [size_consistency] (whose variance the source sums in list order and
    in double precision) and the same recommendations. *)
Theorem counting_factors_ignore_order (transactions transactions' : list Tx)
    (target_address : string) :
  transactions ≡ₚ transactions' →
  Forall normalised transactions →
  ∃ r r',
    calculate_privacy_score transactions target_address = Ok r
    ∧ calculate_privacy_score transactions' target_address = Ok r'
    ∧ (∀ name, name ≠ "size_consistency" →
         getitem (factors r) name = getitem (factors r') name)
    ∧ recommendations r = recommendations r'.
Proof.
  intros Hperm Hnorm.
  pose proof (normalised_perm _ _ Hperm Hnorm) as Hnorm'.
  apply (calculate_privacy_score_returns _ target_address) in Hnorm
    as [r Hr].
  apply (calculate_privacy_score_returns _ target_address) in Hnorm'
    as [r' Hr'].
  exists r, r'. split; [done |]. split; [done |].
  destruct (calculate_privacy_score_perm _ _ _ _ _ Hperm Hr Hr')
    as (_ & -> & ->).
  done.
Qed.

Lemma counting_factors_ignore_order_witness :
  ∃ r r',
    calculate_privacy_score
      [score_samples.later 3600; score_samples.one_in_two_out] "A" = Ok r
    ∧ calculate_privacy_score
        [score_samples.one_in_two_out; score_samples.later 3600] "A" = Ok r'
    ∧ getitem (factors r) "timing_randomness"
      = getitem (factors r') "timing_randomness".
Proof.
  destruct (counting_factors_ignore_order
              [score_samples.later 3600; score_samples.one_in_two_out]
              [score_samples.one_in_two_out; score_samples.later 3600] "A")
    as (r & r' & Hr & Hr' & Hfactors & _).
  - apply perm_swap.
  - repeat constructor; intros l [= <-]; repeat constructor; by eexists.
  - exists r, r'. split; [done |]. split; [done |]. by apply Hfactors.
Defined.

End score_properties.
